(** * Bing Translate UI Overhaul: a shallow embedding of the userscript

    The script is [src/Bing-Translate-UI-Overhaul.js] (version 2.0).  This
    development embeds the parts of it that carry behaviour: the clipboard
    helpers, the keyboard handler, the tone selector and the line-break
    realignment routine [processTranslationLineBreaks].

    - A JavaScript string is the list of its UTF-16 code units ([list N]).
    - The page is a record [Page]: the pieces of the host DOM the script
      reads and writes, the two strings the routine retains between
      invocations, and the trace of every effect the script performs.
    - Effectful functions live in a small state-and-exception monad [M]. *)

From Stdlib Require Import NArith String Ascii.
From stdpp Require Import base tactics option numbers list.

(** ** JavaScript strings *)

Abbreviation jsstring := (list N).

(** String literals of the source, as code units. *)
Definition js (s : string) : jsstring :=
  map N_of_ascii (list_ascii_of_string s).

Module Char.
Local Open Scope N_scope.
Definition LF : N := 10.
Definition SPACE : N := 32.
Definition BANG : N := 33.
Definition DOT : N := 46.
Definition SLASH : N := 47.
Definition LT : N := 60.
Definition GT : N := 62.
Definition QUESTION : N := 63.
Definition AT : N := 64.

(** ECMAScript WhiteSpace and LineTerminator code points: what both
    [String.prototype.trim] and the regular expression class [\s] match. *)
Definition isWhiteSpace (c : N) : bool :=
  (9 <=? c) && (c <=? 13)
  || (c =? 32) || (c =? 160) || (c =? 5760)
  || (8192 <=? c) && (c <=? 8202)
  || (c =? 8232) || (c =? 8233) || (c =? 8239) || (c =? 8287)
  || (c =? 12288) || (c =? 65279).

(** The class [[.!?]] of the sentence regular expression. *)
Definition isTerminator (c : N) : bool :=
  (c =? DOT) || (c =? BANG) || (c =? QUESTION).

(** [b] and [r] under the [i] flag: the letter in either case. *)
Definition isB (c : N) : bool := (c =? 98) || (c =? 66).
Definition isR (c : N) : bool := (c =? 114) || (c =? 82).
End Char.

(** [a === b] on strings. *)
Definition strictEq (a b : jsstring) : bool := bool_decide (a = b).

Fixpoint dropSpaces (s : jsstring) : jsstring :=
  match s with
  | c :: rest => if Char.isWhiteSpace c then dropSpaces rest else s
  | [] => []
  end.

(** [s.trim()] *)
Definition trim (s : jsstring) : jsstring :=
  rev (dropSpaces (rev (dropSpaces s))).

(** [line.trim() === ''] *)
Definition isBlank (line : jsstring) : bool := strictEq (trim line) [].

(** [s.split('\n')] *)
Fixpoint split (s : jsstring) : list jsstring :=
  match s with
  | [] => [[]]
  | c :: rest =>
      if N.eqb c Char.LF then [] :: split rest
      else match split rest with
           | l :: ls => (c :: l) :: ls
           | [] => [[c]]
           end
  end.

(** [lines.join('\n')] *)
Fixpoint join (lines : list jsstring) : jsstring :=
  match lines with
  | [] => []
  | [l] => l
  | l :: ls => l ++ Char.LF :: join ls
  end.

(** [s.includes(sub)] *)
Fixpoint startsWith (sub s : jsstring) : bool :=
  match sub, s with
  | [], _ => true
  | a :: sub', b :: s' => N.eqb a b && startsWith sub' s'
  | _ :: _, [] => false
  end.

Fixpoint includes (sub s : jsstring) : bool :=
  startsWith sub s ||
  match s with
  | [] => false
  | _ :: rest => includes sub rest
  end.

(** Length of a match of [/<br\s*\/?>/i] anchored at the head of [s].
    The whitespace run is taken greedily; since neither [/] nor [>] is
    whitespace, backtracking into it never produces a match. *)
Definition matchBr (s : jsstring) : option nat :=
  match s with
  | lt :: b :: r :: rest =>
      if N.eqb lt Char.LT && Char.isB b && Char.isR r then
        let ws := length rest - length (dropSpaces rest) in
        match dropSpaces rest with
        | c :: rest' =>
            if N.eqb c Char.GT then Some (3 + ws + 1)
            else if N.eqb c Char.SLASH then
              match rest' with
              | d :: _ => if N.eqb d Char.GT then Some (3 + ws + 2) else None
              | [] => None
              end
            else None
        | [] => None
        end
      else None
  | _ => None
  end.

(** [s.replace(/<br\s*\/?>/gi, '\n')]: leftmost matches, not overlapping.
    [skip] counts the code units of the current match still to be consumed. *)
Fixpoint replaceBrFrom (skip : nat) (s : jsstring) : jsstring :=
  match s with
  | [] => []
  | c :: rest =>
      match skip with
      | S k => replaceBrFrom k rest
      | O =>
          match matchBr s with
          | Some len => Char.LF :: replaceBrFrom (len - 1) rest
          | None => c :: replaceBrFrom 0 rest
          end
      end
  end.

Definition replaceBr (s : jsstring) : jsstring := replaceBrFrom 0 s.

(** [inputTextarea.innerHTML.replace(/<br\s*\/?>/gi, '\n').split('\n')] *)
Definition inputLinesOf (html : jsstring) : list jsstring :=
  split (replaceBr html).

(** [line.replace(/\.\s+/g, '.')]: the whitespace that follows a dot is
    dropped.  [afterDot] holds while the scan is inside such a run. *)
Fixpoint replaceDotSpaceFrom (afterDot : bool) (s : jsstring) : jsstring :=
  match s with
  | [] => []
  | c :: rest =>
      if afterDot && Char.isWhiteSpace c then replaceDotSpaceFrom true rest
      else c :: replaceDotSpaceFrom (N.eqb c Char.DOT) rest
  end.

Definition replaceDotSpace (s : jsstring) : jsstring :=
  replaceDotSpaceFrom false s.

(** [/\s$/.test(s)] and [/^\s/.test(s)] *)
Definition endsWithSpace (s : jsstring) : bool :=
  match rev s with
  | c :: _ => Char.isWhiteSpace c
  | [] => false
  end.

Definition startsWithSpace (s : jsstring) : bool :=
  match s with
  | c :: _ => Char.isWhiteSpace c
  | [] => false
  end.

(** ** Sentence segmentation

    [text.match(/[^.!?]+(?:[.!?]+|$)/g)].  A match is a maximal run of
    non-terminators followed by the maximal run of terminators after it
    (or by the end of the text); terminators in front of the first run
    belong to no match.  The scanner below walks the text once. *)

Inductive ScanState :=
| Idle                       (* no match open: leading terminators *)
| InBody (acc : jsstring)    (* inside [^.!?]+, reversed *)
| InTerm (acc : jsstring).   (* inside [.!?]+, reversed *)

Fixpoint scanSentences (st : ScanState) (s : jsstring) : list jsstring :=
  match s with
  | [] =>
      match st with
      | Idle => []
      | InBody acc | InTerm acc => [rev acc]
      end
  | c :: rest =>
      if Char.isTerminator c then
        match st with
        | Idle => scanSentences Idle rest
        | InBody acc | InTerm acc => scanSentences (InTerm (c :: acc)) rest
        end
      else
        match st with
        | Idle => scanSentences (InBody [c]) rest
        | InBody acc => scanSentences (InBody (c :: acc)) rest
        | InTerm acc => rev acc :: scanSentences (InBody [c]) rest
        end
  end.

(** [s.match(re)] is [null] when nothing matches. *)
Definition matchSentences (s : jsstring) : option (list jsstring) :=
  match scanSentences Idle s with
  | [] => None
  | ms => Some ms
  end.

Definition nonEmpty (s : jsstring) : bool := negb (strictEq s []).

(** Lines 188-203: the output segments of the current output text. *)
Definition outputSegmentsOf (currentOutputText : jsstring) : list jsstring :=
  let trimmedOutputText := trim currentOutputText in
  let outputSegments :=
    if nonEmpty trimmedOutputText then
      let ms := match matchSentences trimmedOutputText with
                | Some ms => ms
                | None => [trimmedOutputText]
                end in
      List.filter nonEmpty (map trim ms)
    else [] in
  match outputSegments with
  | [] => if nonEmpty trimmedOutputText then [trimmedOutputText] else []
  | _ => outputSegments
  end.

(** ** The page

    What the script can observe of the host page, what it retains between
    invocations, and the trace of what it does.  Reading [innerText],
    [innerHTML] and the tone selector's [value] returns the string last
    stored there (the selector offers the tones the script asks for); how
    the host page reacts to the script's writes, clicks and events is
    outside the script and is not part of a run. *)

Inductive Element := InputTextarea | OutputDiv | ToneSelect | SwapButton.

Inductive Callback := ProcessTranslationLineBreaks.

Inductive Effect :=
| EDispatch (target : Element) (type : jsstring)
| ESetTimeout (cb : Callback) (ms : N)
| EWarn (msg : jsstring) (arg : option jsstring)
| EError (msg : jsstring) (err : jsstring)
| ELog (msg : jsstring)
| EClick (target : Element)
| EPreventDefault
| EClipboardWrite (text : jsstring)
| EAppendTextarea (text : jsstring)
| ESelectTextarea
| EExecCopy
| ERemoveTextarea.

(** A reaction registered on a promise, waiting in the microtask queue. *)
Inductive Job := RejectionHandler (err text : jsstring).

(** [window.location.hostname].  The userscript header (line 5) has
    [@match https://www.bing.com/translator*]: the script runs on no other
    host. *)
Definition hostname : jsstring := js "www.bing.com".

Record Page := mkPage {
  inputHTML : option jsstring;            (* #tta_input_ta, its innerHTML *)
  outputText : option jsstring;           (* #tta_output_ta, its innerText *)
  toneValue : option jsstring;            (* #tta_tonesl, its value *)
  swapButton : bool;                      (* div#tta_revIcon exists *)
  clipboardWriteText : option (jsstring -> option jsstring);
    (* navigator.clipboard.writeText, when there; [Some err]: it rejects *)
  execCommandError : option jsstring;     (* document.execCommand throws *)
  lastProcessedInputHTML : jsstring;
  lastProcessedOutputText : jsstring;
  microtasks : list Job;
  trace : list Effect
}.

Definition withOutputText (p : Page) (v : option jsstring) : Page :=
  mkPage (inputHTML p) v (toneValue p) (swapButton p)
    (clipboardWriteText p) (execCommandError p)
    (lastProcessedInputHTML p) (lastProcessedOutputText p)
    (microtasks p) (trace p).

Definition withToneValue (p : Page) (v : option jsstring) : Page :=
  mkPage (inputHTML p) (outputText p) v (swapButton p)
    (clipboardWriteText p) (execCommandError p)
    (lastProcessedInputHTML p) (lastProcessedOutputText p)
    (microtasks p) (trace p).

Definition withLastProcessed (p : Page) (html text : jsstring) : Page :=
  mkPage (inputHTML p) (outputText p) (toneValue p) (swapButton p)
    (clipboardWriteText p) (execCommandError p)
    html text (microtasks p) (trace p).

Definition withMicrotasks (p : Page) (q : list Job) : Page :=
  mkPage (inputHTML p) (outputText p) (toneValue p) (swapButton p)
    (clipboardWriteText p) (execCommandError p)
    (lastProcessedInputHTML p) (lastProcessedOutputText p)
    q (trace p).

Definition withTrace (p : Page) (t : list Effect) : Page :=
  mkPage (inputHTML p) (outputText p) (toneValue p) (swapButton p)
    (clipboardWriteText p) (execCommandError p)
    (lastProcessedInputHTML p) (lastProcessedOutputText p)
    (microtasks p) t.

(** ** The monad: page state, and completion by return or by throw *)

Inductive Completion (A : Type) :=
| Normal (a : A)
| Throw (err : jsstring).
Arguments Normal {A} a.
Arguments Throw {A} err.

Definition M (A : Type) : Type := Page -> Completion A * Page.

Definition ret {A} (a : A) : M A := fun p => (Normal a, p).

Definition bind {A B} (m : M A) (k : A -> M B) : M B :=
  fun p =>
    match m p with
    | (Normal a, p') => k a p'
    | (Throw e, p') => (Throw e, p')
    end.

Declare Scope js_scope.
Delimit Scope js_scope with js.
Notation "x <- m ;; k" := (bind m (fun x => k))
  (at level 100, m at next level, right associativity) : js_scope.
Notation "m ;; k" := (bind m (fun _ => k))
  (at level 100, right associativity) : js_scope.
Local Open Scope js_scope.

Definition get : M Page := fun p => (Normal p, p).
Definition modify (f : Page -> Page) : M unit := fun p => (Normal tt, f p).
Definition throw {A} (e : jsstring) : M A := fun p => (Throw e, p).

(** [try { body } catch (err) { handler }] *)
Definition tryCatch {A} (body : M A) (handler : jsstring -> M A) : M A :=
  fun p =>
    match body p with
    | (Throw e, p') => handler e p'
    | r => r
    end.

(** [try { body } finally { fin }] *)
Definition tryFinally {A} (body : M A) (fin : M unit) : M A :=
  fun p =>
    match body p with
    | (r, p') =>
        match fin p' with
        | (Normal _, p'') => (r, p'')
        | (Throw e, p'') => (Throw e, p'')
        end
    end.

Definition emit (e : Effect) : M unit :=
  modify (fun p => withTrace p (trace p ++ [e])).

Definition finalPage {A} (m : M A) (p : Page) : Page := snd (m p).
Definition completion {A} (m : M A) (p : Page) : Completion A := fst (m p).

(** The effects a run added to the trace. *)
Definition effectsOf {A} (m : M A) (p : Page) : list Effect :=
  drop (length (trace p)) (trace (finalPage m p)).

(** ** Clipboard helpers (lines 18-62) *)

Definition clickElement (element : option Element) : M unit :=
  match element with
  | Some el => emit (EClick el)
  | None => ret tt
  end.

(** [document.execCommand('copy')], which may throw. *)
Definition execCommandCopy : M unit :=
  p <- get ;;
  match execCommandError p with
  | Some e => throw e
  | None => emit EExecCopy
  end.

(** Lines 44-62.  Creating, styling and appending the textarea is one
    effect, focusing and selecting it another; only [execCommand] is in the
    [try]. *)
Definition fallbackCopyText (text : jsstring) : M unit :=
  emit (EAppendTextarea text) ;;
  emit ESelectTextarea ;;
  tryFinally
    (tryCatch execCommandCopy
       (fun err => emit (EError (js "Fallback: Oops, unable to copy") err)))
    (emit ERemoveTextarea).

Definition enqueueMicrotask (j : Job) : M unit :=
  modify (fun p => withMicrotasks p (microtasks p ++ [j])).

(** [writeText(text).catch(handler)]: the write is issued now; the handler
    is a promise reaction, run from the microtask queue if the write
    rejects, after the caller has returned. *)
Definition copyPlainText (text : jsstring) : M unit :=
  p <- get ;;
  match clipboardWriteText p with
  | Some writeText =>
      emit (EClipboardWrite text) ;;
      match writeText text with
      | Some err => enqueueMicrotask (RejectionHandler err text)
      | None => ret tt
      end
  | None => fallbackCopyText text
  end.

Definition runJob (j : Job) : M unit :=
  match j with
  | RejectionHandler err text =>
      emit (EError (js "Failed to copy text using Clipboard API: ") err) ;;
      fallbackCopyText text
  end.

(** The host's event loop draining the microtask queue.  A job that throws
    rejects the promise [.catch] returned, which nobody holds. *)
Fixpoint runJobs (jobs : list Job) (p : Page) : Page :=
  match jobs with
  | [] => p
  | j :: rest => runJobs rest (finalPage (runJob j) p)
  end.

Definition drainMicrotasks (p : Page) : Page :=
  runJobs (microtasks p) (withMicrotasks p []).

(** ** Tone selection (lines 405-421) *)

Definition selectTone (toneText : jsstring) : M unit :=
  p <- get ;;
  if negb (includes (js "bing.com") hostname) then ret tt
  else
    match toneValue p with
    | None =>
        emit (EWarn (js "Tone select element (#tta_tonesl) not found.") None)
    | Some value =>
        if strictEq value toneText then ret tt
        else
          modify (fun p => withToneValue p (Some toneText)) ;;
          emit (EDispatch ToneSelect (js "change")) ;;
          emit (ELog (js "Tone set to: " ++ toneText))
    end.

(** ** Keyboard shortcuts (lines 68-116) *)

Record KeyboardEvent := mkKey { altKey : bool; key : jsstring }.

Definition getTranslatedText : M (option jsstring) :=
  p <- get ;; ret (outputText p).

Definition when (b : bool) (m : M unit) : M unit :=
  if b then m else ret tt.

Definition handleKeydown (event : KeyboardEvent) : M unit :=
  when (altKey event && strictEq (key event) (js "z"))
    (emit EPreventDefault ;;
     translatedText <- getTranslatedText ;;
     match translatedText with
     | Some t => if nonEmpty t then copyPlainText (trim t) else ret tt
     | None => ret tt
     end) ;;
  when (altKey event && strictEq (key event) (js "s"))
    (emit EPreventDefault ;;
     p <- get ;;
     clickElement (if swapButton p then Some SwapButton else None)) ;;
  when (altKey event && strictEq (key event) (js "a"))
    (emit EPreventDefault ;;
     p <- get ;;
     match toneValue p with
     | Some currentTone =>
         if strictEq currentTone (js "Casual") then selectTone (js "Formal")
         else if strictEq currentTone (js "Formal") then selectTone (js "Casual")
         else selectTone (js "Casual")
     | None =>
         emit (EWarn (js "Tone select element (#tta_tonesl) not found.") None)
     end).

(** ** Line-break realignment (lines 146-265) *)

Definition mismatchWarning : jsstring :=
  js "Input/Output alignment mismatch (fewer output segments than input lines). Pushing empty for input line:".

Definition extraWarning : jsstring :=
  js "Appending extra output segment to the last non-empty line:".

(** The loop state of lines 205-223: [restoredOutputArray], [outputIndex]
    and the warnings logged so far. *)
Definition AlignState : Type := list jsstring * nat * list Effect.

(** One iteration of the [for] loop of lines 208-223. *)
Definition correlateStep (outputSegments : list jsstring)
    (st : AlignState) (inputLine : jsstring) : AlignState :=
  let '(restoredOutputArray, outputIndex, log) := st in
  let inputLineTrimmed := trim inputLine in
  if strictEq inputLineTrimmed [] then
    (restoredOutputArray ++ [[]], outputIndex, log)
  else
    match outputSegments !! outputIndex with
    | Some segment =>
        (restoredOutputArray ++ [segment], S outputIndex, log)
    | None =>
        (restoredOutputArray ++ [[]], outputIndex,
         log ++ [EWarn mismatchWarning (Some inputLineTrimmed)])
    end.

(** Lines 233-239: the "careful concatenation". *)
Definition glue (line segment : jsstring) : jsstring :=
  (if nonEmpty line && nonEmpty segment
      && negb (endsWithSpace line) && negb (startsWithSpace segment)
   then line ++ [Char.SPACE] else line) ++ segment.

(** The [for (k = length - 1; k >= 0; k--)] search of lines 230-243;
    [k] counts the entries still to be looked at. *)
Fixpoint scanBack (k : nat) (arr : list jsstring) (segment : jsstring)
    : option (list jsstring) :=
  match k with
  | O => None
  | S k' =>
      match arr !! k' with
      | Some line =>
          if nonEmpty line then Some (<[k' := glue line segment]> arr)
          else scanBack k' arr segment
      | None => scanBack k' arr segment
      end
  end.

(** One iteration of the [while] loop of lines 227-249. *)
Definition appendExtraStep (st : list jsstring * list Effect)
    (segment : jsstring) : list jsstring * list Effect :=
  let '(restoredOutputArray, log) := st in
  let log' := log ++ [EWarn extraWarning (Some segment)] in
  match scanBack (length restoredOutputArray) restoredOutputArray segment with
  | Some arr' => (arr', log')
  | None => (restoredOutputArray ++ [segment], log')
  end.

(** Lines 205-249.  The [while] loop visits the segments from
    [outputIndex] on, in order. *)
Definition restore (inputLines outputSegments : list jsstring)
    : list jsstring * list Effect :=
  let '(arr, outputIndex, log) :=
    fold_left (correlateStep outputSegments) inputLines ([], 0, []) in
  fold_left appendExtraStep (drop outputIndex outputSegments) (arr, log).

(** Lines 254-260: the e-mail post-processing. *)
Definition fixEmailLine (line : jsstring) : jsstring :=
  if includes [Char.AT] line then replaceDotSpace line else line.

Definition postProcess (restoredOutput : jsstring) : jsstring :=
  join (map fixEmailLine (split restoredOutput)).

(** [processedOutput] for an input that is not all blank. *)
Definition processedOutputOf (html text : jsstring) : jsstring :=
  postProcess (join (fst (restore (inputLinesOf html) (outputSegmentsOf text)))).

Definition triggerOutputEvents (element : Element) : M unit :=
  emit (EDispatch element (js "input")) ;;
  emit (EDispatch element (js "change")) ;;
  emit (EDispatch element (js "compositionend")).

Definition emitAll (es : list Effect) : M unit :=
  modify (fun p => withTrace p (trace p ++ es)).

(** [outputDiv.innerText] and [outputDiv.innerText = v], for an element
    known to be there. *)
Definition outputInnerText : M jsstring :=
  p <- get ;;
  ret (match outputText p with Some v => v | None => [] end).

Definition setOutputInnerText (v : jsstring) : M unit :=
  modify (fun p => withOutputText p (Some v)).

Definition writeOutputIfChanged (v : jsstring) : M unit :=
  now <- outputInnerText ;;
  if negb (strictEq now v) then
    setOutputInnerText v ;;
    triggerOutputEvents OutputDiv
  else ret tt.

Definition processTranslationLineBreaks : M unit :=
  p <- get ;;
  match inputHTML p, outputText p with
  | Some currentInputHTML, Some currentOutputText =>
      if strictEq currentInputHTML (lastProcessedInputHTML p)
         && strictEq currentOutputText (lastProcessedOutputText p)
      then ret tt
      else
        modify (fun p => withLastProcessed p currentInputHTML currentOutputText) ;;
        let inputLines := inputLinesOf currentInputHTML in
        if forallb isBlank inputLines then
          writeOutputIfChanged []
        else
          let outputSegments := outputSegmentsOf currentOutputText in
          let '(restoredOutputArray, warnings) :=
            restore inputLines outputSegments in
          emitAll warnings ;;
          writeOutputIfChanged (postProcess (join restoredOutputArray))
  | _, _ => emit (ESetTimeout ProcessTranslationLineBreaks 500)
  end.

(** Every string the routine would leave in the output node for an input
    HTML and an output text that get past the two guards. *)
Definition resegment (html text : jsstring) : jsstring :=
  if forallb isBlank (inputLinesOf html) then []
  else processedOutputOf html text.

(** The events dispatched on page elements among a list of effects. *)
Definition dispatches (es : list Effect) : list (Element * jsstring) :=
  omap (fun e => match e with EDispatch el ty => Some (el, ty) | _ => None end) es.

(** The console warnings among a list of effects. *)
Definition warningsOf (es : list Effect) : list Effect :=
  List.filter (fun e => match e with EWarn _ _ => true | _ => false end) es.

Definition outputEvents : list Effect :=
  [EDispatch OutputDiv (js "input"); EDispatch OutputDiv (js "change");
   EDispatch OutputDiv (js "compositionend")].

(** The guard of line 170: nothing changed since the last pass. *)
Definition unchanged (p : Page) (html text : jsstring) : bool :=
  strictEq html (lastProcessedInputHTML p)
  && strictEq text (lastProcessedOutputText p).

(** The page after a pass over [html] and [text] that logged [log] and
    ended in [writeOutputIfChanged v]. *)
Definition pageAfter (p : Page) (html text : jsstring)
    (log : list Effect) (v : jsstring) : Page :=
  let p1 := withLastProcessed p html text in
  if strictEq text v then withTrace p1 (trace p ++ log)
  else withTrace (withOutputText p1 (Some v)) (trace p ++ log ++ outputEvents).

(** The effects of one call of [fallbackCopyText text]. *)
Definition fallbackEffects (p : Page) (text : jsstring) : list Effect :=
  [EAppendTextarea text; ESelectTextarea]
  ++ match execCommandError p with
     | Some e => [EError (js "Fallback: Oops, unable to copy") e]
     | None => [EExecCopy]
     end
  ++ [ERemoveTextarea].

(** The texts handed to the Clipboard API and to the fallback among a list
    of effects. *)
Definition clipboardWrites (es : list Effect) : list jsstring :=
  omap (fun e => match e with EClipboardWrite t => Some t | _ => None end) es.

Definition fallbackCalls (es : list Effect) : list jsstring :=
  omap (fun e => match e with EAppendTextarea t => Some t | _ => None end) es.

(** What a page's trace gained between [p] and [q]. *)
Definition effectsBetween (p q : Page) : list Effect :=
  drop (length (trace p)) (trace q).

(** The toggle of lines 104-111. *)
Definition otherTone (currentTone : jsstring) : jsstring :=
  if strictEq currentTone (js "Casual") then js "Formal" else js "Casual".

Definition altKeyPress (k : string) : KeyboardEvent := mkKey true (js k).

(** A page the script has just been loaded on: both regions there, the
    tone selector on its default, nothing processed yet. *)
Definition freshPage (html text : jsstring) : Page :=
  mkPage (Some html) (Some text) (Some (js "Standard")) true
    None None [] [] [] [].

(** ** Vocabulary for the alignment properties *)

(** The input lines that are not blank, in order. *)
Definition nonBlankLines (lines : list jsstring) : list jsstring :=
  List.filter (fun l => negb (isBlank l)) lines.

(** How many non-blank lines come before line [i]. *)
Definition rank (lines : list jsstring) (i : nat) : nat :=
  length (nonBlankLines (take i lines)).

(** What the [for] loop pushes for line [i]. *)
Definition alignedAt (segs lines : list jsstring) (i : nat) (line : jsstring)
    : jsstring :=
  if isBlank line then []
  else match segs !! rank lines i with
       | Some segment => segment
       | None => []
       end.

Definition mismatchWarningFor (line : jsstring) : Effect :=
  EWarn mismatchWarning (Some (trim line)).

Definition extraWarningFor (segment : jsstring) : Effect :=
  EWarn extraWarning (Some segment).

(** The number of newlines in a string; a text has one line more. *)
Definition countLF (s : jsstring) : nat :=
  length (List.filter (N.eqb Char.LF) s).

(** The segments from [j] on, concatenated the way the [while] loop of
    lines 227-249 does it. *)
Definition gluedFrom (segs : list jsstring) (j : nat) : jsstring :=
  match drop j segs with
  | [] => []
  | segment :: extras => fold_left glue extras segment
  end.

(** What [restoredOutputArray] holds for line [i] after both loops: the
    last non-blank line also takes every segment left over. *)
Definition restoredAt (segs lines : list jsstring) (i : nat) (line : jsstring)
    : jsstring :=
  if isBlank line then []
  else if S (rank lines i) =? length (nonBlankLines lines)
       then gluedFrom segs (rank lines i)
       else match segs !! rank lines i with
            | Some segment => segment
            | None => []
            end.

(** The characters a scan state holds. *)
Definition pending (st : ScanState) : jsstring :=
  match st with
  | Idle => []
  | InBody acc | InTerm acc => acc
  end.

(** ** Vocabulary for the idempotence property *)

Definition allSpace (s : jsstring) : Prop :=
  Forall (fun c => Char.isWhiteSpace c = true) s.

(** Trimming at the right end only; [trim s = rtrim (dropSpaces s)]. *)
Definition rtrim (s : jsstring) : jsstring := rev (dropSpaces (rev s)).

Definition startsWithTerminator (s : jsstring) : bool :=
  match s with
  | c :: _ => Char.isTerminator c
  | [] => false
  end.

Definition endsWithTerminator (s : jsstring) : bool :=
  match rev s with
  | c :: _ => Char.isTerminator c
  | [] => false
  end.

(** A trimmed sentence: a body without terminators that starts with a
    visible character, then terminators; no whitespace at either end. *)
Definition ProperSentence (s : jsstring) : Prop :=
  exists body term,
    s = body ++ term
    /\ body <> []
    /\ Forall (fun c => Char.isTerminator c = false) body
    /\ Forall (fun c => Char.isTerminator c = true) term
    /\ startsWithSpace s = false
    /\ endsWithSpace s = false.

(** [Weave segs s]: the text [s] is the segments [segs] in order, with
    nothing but whitespace before, between and after them. *)
Inductive Weave : list jsstring -> jsstring -> Prop :=
| weave_nil (ws : jsstring) :
    allSpace ws -> Weave [] ws
| weave_cons (ws seg rest : jsstring) (segs : list jsstring) :
    allSpace ws -> ProperSentence seg -> Weave segs rest ->
    Weave (seg :: segs) (ws ++ seg ++ rest).

(** Every element but the last one satisfies [P]. *)
Inductive AllButLast {A} (P : A -> Prop) : list A -> Prop :=
| abl_nil : AllButLast P []
| abl_one (x : A) : AllButLast P [x]
| abl_cons (x y : A) (l : list A) :
    P x -> AllButLast P (y :: l) -> AllButLast P (x :: y :: l).

(** [Squeeze s s']: [s'] is [s] with some runs of whitespace that follow a
    dot taken out. *)
Inductive Squeeze : jsstring -> jsstring -> Prop :=
| squeeze_nil : Squeeze [] []
| squeeze_keep (c : N) (s s' : jsstring) :
    Squeeze s s' -> Squeeze (c :: s) (c :: s')
| squeeze_drop (ws s s' : jsstring) :
    allSpace ws -> Squeeze s s' ->
    Squeeze (Char.DOT :: ws ++ s) (Char.DOT :: s').

(** The matches of the sentence expression, trimmed, without the empty
    ones (line 195). *)
Definition segsOf (ms : list jsstring) : list jsstring :=
  List.filter nonEmpty (map trim ms).

(** A match of the sentence expression, or a piece of one:
    non-terminators, then terminators. *)
Definition SentenceShape (m : jsstring) : Prop :=
  exists body term,
    m = body ++ term
    /\ Forall (fun c => Char.isTerminator c = false) body
    /\ Forall (fun c => Char.isTerminator c = true) term.

(** What the scanner holds in each state. *)
Definition stateOK (st : ScanState) : Prop :=
  match st with
  | Idle => True
  | InBody acc => Forall (fun c => Char.isTerminator c = false) acc
  | InTerm acc =>
      SentenceShape (rev acc) /\ endsWithTerminator (rev acc) = true
  end.

(** ** Vocabulary for the further properties *)

(** Some dot in [s] is followed by whitespace: [/\.\s/.test(s)]. *)
Fixpoint hasDotSpace (s : jsstring) : bool :=
  match s with
  | [] => false
  | c :: rest =>
      (N.eqb c Char.DOT && startsWithSpace rest) || hasDotSpace rest
  end.

(** The characters of [s] that are not whitespace, in order. *)
Definition visible (s : jsstring) : jsstring :=
  List.filter (fun c => negb (Char.isWhiteSpace c)) s.

(** The page after [copyPlainText text] has returned. *)
Definition pageAfterCopy (p : Page) (text : jsstring) : Page :=
  match clipboardWriteText p with
  | Some writeText =>
      let p1 := withTrace p (trace p ++ [EClipboardWrite text]) in
      match writeText text with
      | Some err => withMicrotasks p1 (microtasks p ++ [RejectionHandler err text])
      | None => p1
      end
  | None => withTrace p (trace p ++ fallbackEffects p text)
  end.

(** ** The copy button (lines 318-344)

    The button the script puts in its top bar: its title, its inline
    opacity, and the 1000 ms timers its click handler has set and that
    have not fired yet, each with the title it closed over, oldest
    first. *)
Record CopyButton := mkButton {
  buttonTitle : jsstring;
  buttonOpacity : jsstring;
  restoreTimers : list jsstring
}.

(** What a handler calls on the event it is given. *)
Inductive EventCall := PreventDefault | StopPropagation.

(** The click handler of lines 325-343. *)
Definition copyButtonClick (b : CopyButton) : M (list EventCall * CopyButton) :=
  let calls := [PreventDefault; StopPropagation] in
  p <- get ;;
  match outputText p with
  | Some innerText =>
      if nonEmpty innerText then
        copyPlainText (trim innerText) ;;
        let originalTitle := buttonTitle b in
        ret (calls,
             mkButton (js "Copied!") (js "0.6")
                      (restoreTimers b ++ [originalTitle]))
      else ret (calls, b)
  | None => ret (calls, b)
  end.

(** The oldest pending timer of lines 338-341 fires. *)
Definition fireRestoreTimer (b : CopyButton) : CopyButton :=
  match restoreTimers b with
  | originalTitle :: rest => mkButton originalTitle [] rest
  | [] => b
  end.

(** The button after a click on page [p]. *)
Definition clicked (b : CopyButton) (p : Page) : CopyButton :=
  match completion (copyButtonClick b) p with
  | Normal (_, b') => b'
  | Throw _ => b
  end.

(** ** [escapeRegex] (lines 137-139)

    The class [[.*+?^${}()|[\]\\]]. *)
Definition isRegexSpecial (c : N) : bool :=
  existsb (N.eqb c) (js ".*+?^${}()|[]\").

Definition BACKSLASH : N := 92%N.

(** [string.replace(/[.*+?^${}()|[\]\\]/g, '\\$&')] *)
Definition escapeRegex (s : jsstring) : jsstring :=
  flat_map (fun c => if isRegexSpecial c then [BACKSLASH; c] else [c]) s.

(** Reading an escaped string back: a backslash stands for the character
    after it. *)
Fixpoint unescape (s : jsstring) : jsstring :=
  match s with
  | [] => []
  | c :: rest =>
      if N.eqb c BACKSLASH then
        match rest with
        | d :: rest' => d :: unescape rest'
        | [] => [c]
        end
      else c :: unescape rest
  end.

(** ** Installing the copy button (lines 289-359)

    [div#tta_copyIcon], Bing's own copy button, as the script sees it:
    its [innerHTML], its inline [display], and the inline [display] of
    the closest [td.tta_swapcell] above it, if there is one. *)
Record OriginalCopyButton := mkOriginal {
  innerHTML : jsstring;
  display : jsstring;
  parentCell : option jsstring
}.

(** [#fixed_tta_copyIcon], the element of lines 318-325: its [innerHTML],
    the state its click handler works on, its
    [data-plain-text-override] attribute and the number of click
    listeners it has. *)
Record FixedCopyButton := mkFixed {
  fixedInnerHTML : jsstring;
  button : CopyButton;
  plainTextOverride : option jsstring;
  clickListeners : nat
}.

(** What [overrideBingCopyButton] reads and writes: the two buttons,
    [#custom_top_bar] with the ids of its children, the flag of line
    289, the number of observers of line 348 registered on the body, and
    the messages of [console.error]. *)
Record Document := mkDocument {
  originalCopyButton : option OriginalCopyButton;
  fixedCopyButton : option FixedCopyButton;
  customTopBar : option (list jsstring);
  fixedCopyButtonInitialized : bool;
  bodyObservers : nat;
  errors : list jsstring
}.

(** Lines 303-308 and 351-355: the button and its cell get
    [display: none]. *)
Definition hide (o : OriginalCopyButton) : OriginalCopyButton :=
  mkOriginal (innerHTML o) (js "none")
             (match parentCell o with
              | Some _ => Some (js "none")
              | None => None
              end).

Definition overrideBingCopyButton (d : Document) : Document :=
  if negb (includes (js "bing.com") hostname) then d
  else if fixedCopyButtonInitialized d then d
  else
    let svgHtml :=
      match originalCopyButton d with
      | Some o => innerHTML o
      | None => []
      end in
    let original := option_map hide (originalCopyButton d) in
    match fixedCopyButton d with
    | None =>
        match customTopBar d with
        | None =>
            mkDocument original None None false (bodyObservers d)
              (errors d
               ++ [js "Custom top bar not found to place copy button."])
        | Some children =>
            mkDocument original
              (Some (mkFixed svgHtml (mkButton (js "Copy") [] [])
                             (Some (js "true")) 1))
              (Some (children ++ [js "fixed_tta_copyIcon"]))
              true (S (bodyObservers d)) (errors d)
        end
    | Some fixed =>
        mkDocument original (Some fixed) (customTopBar d) false
                   (S (bodyObservers d)) (errors d)
    end.

(** The callback of the observer of lines 348-357.  The element it finds
    with [div#tta_copyIcon] has the id [tta_copyIcon]. *)
Definition hideOriginalAgain (d : Document) : Document :=
  match originalCopyButton d with
  | Some o =>
      if negb (strictEq (js "tta_copyIcon") (js "fixed_tta_copyIcon"))
         && negb (strictEq (display o) (js "none"))
      then mkDocument (Some (hide o)) (fixedCopyButton d) (customTopBar d)
                      (fixedCopyButtonInitialized d) (bodyObservers d)
                      (errors d)
      else d
  | None => d
  end.

(** The original button and its cell are out of sight. *)
Definition hidden (o : OriginalCopyButton) : Prop :=
  display o = js "none"
  /\ match parentCell o with
     | Some cellDisplay => cellDisplay = js "none"
     | None => True
     end.

(** * Properties *)

(** ** Strings *)

Lemma strictEq_true (a b : jsstring) : strictEq a b = true <-> a = b.
Proof. unfold strictEq. apply bool_decide_eq_true. Qed.

Lemma strictEq_false (a b : jsstring) : strictEq a b = false <-> a <> b.
Proof. unfold strictEq. apply bool_decide_eq_false. Qed.

Lemma strictEq_refl (a : jsstring) : strictEq a a = true.
Proof. by apply strictEq_true. Qed.

Lemma nonEmpty_true (s : jsstring) : nonEmpty s = true <-> s <> [].
Proof.
  unfold nonEmpty. rewrite negb_true_iff. apply strictEq_false.
Qed.

Lemma nonEmpty_false (s : jsstring) : nonEmpty s = false <-> s = [].
Proof.
  unfold nonEmpty. rewrite negb_false_iff. apply strictEq_true.
Qed.

(** ** The monad *)

Lemma effectsOf_app {A} (m : M A) (p : Page) (es : list Effect) :
  trace (finalPage m p) = trace p ++ es -> effectsOf m p = es.
Proof.
  intros H. unfold effectsOf. rewrite H. by rewrite drop_app_length.
Qed.

Lemma effectsOf_nil {A} (m : M A) (p : Page) :
  trace (finalPage m p) = trace p -> effectsOf m p = [].
Proof.
  intros H. apply effectsOf_app. by rewrite app_nil_r.
Qed.

(** ** The run of [processTranslationLineBreaks], case by case *)

Section Run.
Variable p : Page.
Variables html text : jsstring.
Hypothesis Hin : inputHTML p = Some html.
Hypothesis Hout : outputText p = Some text.

Lemma run_unchanged :
  unchanged p html text = true -> processTranslationLineBreaks p = (Normal tt, p).
Proof using Hin Hout.
  unfold unchanged. intros Hg.
  cbv [processTranslationLineBreaks bind get].
  by rewrite Hin, Hout, Hg.
Qed.

Lemma run_all_blank :
  unchanged p html text = false ->
  forallb isBlank (inputLinesOf html) = true ->
  processTranslationLineBreaks p = (Normal tt, pageAfter p html text [] []).
Proof using Hin Hout.
  unfold unchanged. intros Hg Hb.
  cbv [processTranslationLineBreaks bind get].
  rewrite Hin, Hout, Hg. cbn [modify]. rewrite Hb.
  cbv [writeOutputIfChanged outputInnerText bind get ret pageAfter].
  cbn [withLastProcessed outputText]. rewrite Hout.
  destruct (strictEq text []) eqn:He; cbn [negb].
  - unfold withTrace, withLastProcessed. cbn. by rewrite app_nil_r.
  - cbv [setOutputInnerText triggerOutputEvents emit modify bind].
    unfold withTrace, withOutputText, withLastProcessed, outputEvents. cbn.
    by rewrite <- !app_assoc.
Qed.

Lemma run_segmented :
  unchanged p html text = false ->
  forallb isBlank (inputLinesOf html) = false ->
  processTranslationLineBreaks p =
    (Normal tt,
     pageAfter p html text (snd (restore (inputLinesOf html) (outputSegmentsOf text)))
       (processedOutputOf html text)).
Proof using Hin Hout.
  unfold unchanged. intros Hg Hb.
  cbv [processTranslationLineBreaks bind get].
  rewrite Hin, Hout, Hg. cbn [modify]. rewrite Hb.
  unfold processedOutputOf.
  destruct (restore (inputLinesOf html) (outputSegmentsOf text)) as [arr log].
  cbn [fst snd].
  cbv [emitAll writeOutputIfChanged outputInnerText bind get ret modify pageAfter].
  cbn [withLastProcessed withTrace outputText trace]. rewrite Hout.
  destruct (strictEq text (postProcess (join arr))) eqn:He; cbn [negb].
  - reflexivity.
  - cbv [setOutputInnerText triggerOutputEvents emit modify bind].
    unfold withTrace, withOutputText, withLastProcessed, outputEvents. cbn.
    by rewrite <- !app_assoc.
Qed.

(** Whatever the case, the output node ends up holding either what it
    held or the resegmented text. *)
Lemma run_processed :
  unchanged p html text = false ->
  outputText (finalPage processTranslationLineBreaks p)
    = Some (resegment html text).
Proof using Hin Hout.
  intros Hg. unfold finalPage, resegment.
  destruct (forallb isBlank (inputLinesOf html)) eqn:Hb.
  - rewrite (run_all_blank Hg Hb). cbn [snd]. unfold pageAfter.
    destruct (strictEq text []) eqn:He; cbn; [|done].
    apply strictEq_true in He. by rewrite Hout, He.
  - rewrite (run_segmented Hg Hb). cbn [snd]. unfold pageAfter.
    destruct (strictEq text (processedOutputOf html text)) eqn:He; cbn; [|done].
    apply strictEq_true in He. by rewrite Hout, He at 1.
Qed.
End Run.

(** ** The guards of the routine *)

(** C3. When the input HTML and the output text are the ones retained from
    the last pass, the routine returns at once: the page, and so the
    output node's text, is what it was, and no effect is performed. *)
Theorem unchanged_content_is_skipped (p : Page) (html text : jsstring) :
  inputHTML p = Some html ->
  outputText p = Some text ->
  html = lastProcessedInputHTML p ->
  text = lastProcessedOutputText p ->
  processTranslationLineBreaks p = (Normal tt, p)
  /\ outputText (finalPage processTranslationLineBreaks p) = Some text
  /\ dispatches (effectsOf processTranslationLineBreaks p) = []
  /\ effectsOf processTranslationLineBreaks p = [].
Proof.
  intros Hin Hout Hh Ht.
  assert (Hrun : processTranslationLineBreaks p = (Normal tt, p)).
  { apply (run_unchanged p html text Hin Hout).
    unfold unchanged. by rewrite <- Hh, <- Ht, !strictEq_refl. }
  assert (He : effectsOf processTranslationLineBreaks p = []).
  { apply effectsOf_nil. unfold finalPage. by rewrite Hrun. }
  split; [done|]. split; [unfold finalPage; by rewrite Hrun|].
  by rewrite He.
Qed.

Lemma unchanged_content_is_skipped_witness :
  let p := mkPage (Some (js "x")) (Some (js "a")) None true None None
             (js "x") (js "a") [] [] in
  processTranslationLineBreaks p = (Normal tt, p)
  /\ outputText (finalPage processTranslationLineBreaks p) = Some (js "a")
  /\ dispatches (effectsOf processTranslationLineBreaks p) = []
  /\ effectsOf processTranslationLineBreaks p = [].
Proof.
  intros p.
  apply (unchanged_content_is_skipped p (js "x") (js "a")); reflexivity.
Defined.

(** C6. When the input element or the output element is missing, the
    routine changes nothing on the page and only schedules itself again
    after 500 ms: no text is written, no event is dispatched, and the
    retained strings stay as they were (no segmentation took place). *)
Theorem missing_element_retries (p : Page) :
  inputHTML p = None \/ outputText p = None ->
  processTranslationLineBreaks p
    = (Normal tt,
       withTrace p (trace p ++ [ESetTimeout ProcessTranslationLineBreaks 500]))
  /\ effectsOf processTranslationLineBreaks p
      = [ESetTimeout ProcessTranslationLineBreaks 500]
  /\ outputText (finalPage processTranslationLineBreaks p) = outputText p
  /\ inputHTML (finalPage processTranslationLineBreaks p) = inputHTML p
  /\ lastProcessedInputHTML (finalPage processTranslationLineBreaks p)
      = lastProcessedInputHTML p
  /\ lastProcessedOutputText (finalPage processTranslationLineBreaks p)
      = lastProcessedOutputText p.
Proof.
  intros Hmiss.
  assert (Hrun : processTranslationLineBreaks p
    = (Normal tt,
       withTrace p (trace p ++ [ESetTimeout ProcessTranslationLineBreaks 500]))).
  { cbv [processTranslationLineBreaks bind get].
    destruct Hmiss as [H|H]; rewrite H; [done|].
    by destruct (inputHTML p). }
  split; [done|]. unfold effectsOf, finalPage. rewrite Hrun. cbn.
  by rewrite drop_app_length.
Qed.

Lemma missing_element_retries_witness :
  let p := mkPage None (Some (js "a")) None true None None [] [] [] [] in
  effectsOf processTranslationLineBreaks p
    = [ESetTimeout ProcessTranslationLineBreaks 500]
  /\ outputText (finalPage processTranslationLineBreaks p) = Some (js "a").
Proof.
  intros p.
  destruct (missing_element_retries p) as (_ & He & Ho & _).
  - left. reflexivity.
  - split; [exact He | exact Ho].
Defined.

(** ** The alignment loops *)

Lemma nonBlankLines_snoc (lines : list jsstring) (l : jsstring) :
  nonBlankLines (lines ++ [l])
    = nonBlankLines lines ++ (if isBlank l then [] else [l]).
Proof.
  unfold nonBlankLines. rewrite List.filter_app. cbn.
  by destruct (isBlank l).
Qed.

Lemma rank_snoc_lt (lines : list jsstring) (l : jsstring) (i : nat) :
  i <= length lines -> rank (lines ++ [l]) i = rank lines i.
Proof.
  intros Hi. unfold rank. by rewrite take_app_le.
Qed.

Lemma rank_length (lines : list jsstring) :
  rank lines (length lines) = length (nonBlankLines lines).
Proof.
  unfold rank. by rewrite firstn_all.
Qed.

Lemma alignedAt_snoc (segs lines : list jsstring) (l : jsstring) :
  imap (alignedAt segs (lines ++ [l])) lines = imap (alignedAt segs lines) lines.
Proof.
  apply imap_ext. intros i x Hx. unfold alignedAt.
  rewrite rank_snoc_lt; [done|].
  apply lookup_lt_Some in Hx. lia.
Qed.

Lemma alignedAt_last (segs lines : list jsstring) (l : jsstring) :
  alignedAt segs (lines ++ [l]) (length lines) l
    = if isBlank l then []
      else match segs !! length (nonBlankLines lines) with
           | Some segment => segment
           | None => []
           end.
Proof.
  unfold alignedAt. by rewrite rank_snoc_lt, rank_length.
Qed.

(** The [for] loop of lines 208-223 in closed form. *)
Lemma correlate_closed_form (segs lines : list jsstring) :
  fold_left (correlateStep segs) lines ([], 0, [])
    = (imap (alignedAt segs lines) lines,
       length (nonBlankLines lines) `min` length segs,
       map mismatchWarningFor (drop (length segs) (nonBlankLines lines))).
Proof.
  induction lines as [|l lines IH] using rev_ind.
  { cbn. by rewrite drop_nil. }
  rewrite fold_left_app, IH. cbn [fold_left correlateStep].
  rewrite imap_app, alignedAt_snoc. cbn [imap].
  rewrite Nat.add_0_r, alignedAt_last.
  rewrite nonBlankLines_snoc.
  change (strictEq (trim l) []) with (isBlank l).
  destruct (isBlank l) eqn:Hb.
  - by rewrite app_nil_r.
  - rewrite length_app. cbn [length].
    destruct (decide (length (nonBlankLines lines) < length segs)) as [Hlt|Hge].
    + rewrite Nat.min_l by lia.
      destruct (lookup_lt_is_Some_2 segs _ Hlt) as [seg Hseg].
      rewrite Hseg. f_equal; [f_equal; lia|].
      rewrite !drop_ge; [done| |lia].
      rewrite length_app. cbn. lia.
    + rewrite Nat.min_r by lia.
      rewrite (lookup_ge_None_2 segs (length segs)) by lia.
      rewrite (lookup_ge_None_2 segs (length (nonBlankLines lines))) by lia.
      f_equal; [f_equal; lia|].
      rewrite drop_app_le by lia. by rewrite map_app.
Qed.

Lemma glue_nonEmpty (line segment : jsstring) :
  line <> [] -> glue line segment <> [].
Proof.
  intros Hl. unfold glue.
  destruct (_ && _); destruct line; try done; by destruct segment.
Qed.

Lemma scanBack_found (n : nat) (arr : list jsstring) (segment : jsstring)
    (k : nat) (line : jsstring) :
  arr !! k = Some line -> line <> [] ->
  (forall j y, k < j -> arr !! j = Some y -> y = []) ->
  k < n -> n <= length arr ->
  scanBack n arr segment = Some (<[k := glue line segment]> arr).
Proof.
  intros Hk Hne Hlater. induction n as [|n IH]; intros Hkn Hn; [lia|].
  cbn [scanBack].
  destruct (decide (n = k)) as [->|Hnk].
  - rewrite Hk. apply nonEmpty_true in Hne. by rewrite Hne.
  - destruct (lookup_lt_is_Some_2 arr n) as [y Hy]; [lia|].
    rewrite Hy. assert (y = []) as -> by (apply (Hlater n); [lia|done]).
    cbn. apply IH; lia.
Qed.

(** The [while] loop of lines 227-249 when some line is not empty: every
    extra segment lands on the last such line. *)
Lemma extras_closed_form (extras arr : list jsstring) (log : list Effect)
    (k : nat) (line : jsstring) :
  arr !! k = Some line -> line <> [] ->
  (forall j y, k < j -> arr !! j = Some y -> y = []) ->
  fold_left appendExtraStep extras (arr, log)
    = (<[k := fold_left glue extras line]> arr,
       log ++ map extraWarningFor extras).
Proof.
  revert arr log line.
  induction extras as [|seg extras IH]; intros arr log line Hk Hne Hlater.
  - cbn. by rewrite list_insert_id, app_nil_r.
  - cbn [fold_left appendExtraStep map].
    pose proof (lookup_lt_Some _ _ _ Hk) as Hlen.
    rewrite (scanBack_found (length arr) arr seg k line) by (done || lia).
    rewrite (IH _ _ (glue line seg)).
    + rewrite list_insert_insert_eq. by rewrite <- app_assoc.
    + by apply list_lookup_insert_eq.
    + by apply glue_nonEmpty.
    + intros j y Hj. rewrite list_lookup_insert_ne by lia. by apply Hlater.
Qed.

Lemma rank_le (lines : list jsstring) (i j : nat) :
  i <= j -> rank lines i <= rank lines j.
Proof.
  intros Hij. unfold rank.
  rewrite <- (take_drop i (take j lines)), take_take, Nat.min_l by done.
  unfold nonBlankLines. rewrite List.filter_app, length_app. lia.
Qed.

Lemma rank_S (lines : list jsstring) (i : nat) (l : jsstring) :
  lines !! i = Some l ->
  rank lines (S i) = rank lines i + (if isBlank l then 0 else 1).
Proof.
  intros Hl. unfold rank. rewrite (take_S_r _ _ _ Hl), nonBlankLines_snoc.
  rewrite length_app. by destruct (isBlank l).
Qed.

Lemma rank_lt_nonBlank (lines : list jsstring) (i : nat) (l : jsstring) :
  lines !! i = Some l -> isBlank l = false ->
  rank lines i < length (nonBlankLines lines).
Proof.
  intros Hl Hb. pose proof (rank_S lines i l Hl) as HS. rewrite Hb in HS.
  pose proof (rank_le lines (S i) (length lines)) as Hle.
  rewrite rank_length in Hle. apply lookup_lt_Some in Hl. lia.
Qed.

(** A list of lines with a non-blank line has a last one. *)
Lemma last_nonBlank_line (lines : list jsstring) :
  0 < length (nonBlankLines lines) ->
  exists k l,
    lines !! k = Some l /\ isBlank l = false
    /\ S (rank lines k) = length (nonBlankLines lines)
    /\ forall j l', k < j -> lines !! j = Some l' -> isBlank l' = true.
Proof.
  induction lines as [|l lines IH] using rev_ind; [cbn; lia|].
  rewrite nonBlankLines_snoc, length_app.
  destruct (isBlank l) eqn:Hb; cbn [length]; intros Hpos.
  - destruct IH as (k & lk & Hk & Hbk & Hr & Hlater); [lia|].
    exists k, lk. pose proof (lookup_lt_Some _ _ _ Hk) as Hlen.
    split; [by apply lookup_app_l_Some|]. split; [done|].
    split; [rewrite rank_snoc_lt; lia|].
    intros j l' Hj Hl'.
    destruct (decide (j < length lines)) as [Hlt|Hge].
    + rewrite lookup_app_l in Hl' by done. by apply (Hlater j).
    + rewrite lookup_app_r in Hl' by lia.
      destruct (j - length lines) as [|n]; cbn in Hl'; [congruence|done].
  - exists (length lines), l.
    split; [by rewrite lookup_app_r, Nat.sub_diag|]. split; [done|].
    split; [rewrite rank_snoc_lt, rank_length; lia|].
    intros j l' Hj Hl'. apply lookup_lt_Some in Hl'.
    rewrite length_app in Hl'. cbn in Hl'. lia.
Qed.

Lemma gluedFrom_lookup (segs : list jsstring) (j : nat) (segment : jsstring) :
  segs !! j = Some segment ->
  gluedFrom segs j = fold_left glue (drop (S j) segs) segment.
Proof.
  intros Hj. unfold gluedFrom. by rewrite (drop_S _ _ _ Hj).
Qed.

Lemma gluedFrom_ge (segs : list jsstring) (j : nat) :
  length segs <= j -> gluedFrom segs j = [].
Proof.
  intros Hj. unfold gluedFrom. by rewrite drop_ge.
Qed.

(** With at least as many non-blank lines as segments the [while] loop
    does not run. *)
Lemma restore_no_extras (lines segs : list jsstring) :
  length segs <= length (nonBlankLines lines) ->
  restore lines segs
    = (imap (alignedAt segs lines) lines,
       map mismatchWarningFor (drop (length segs) (nonBlankLines lines))).
Proof.
  intros Hle. unfold restore. rewrite correlate_closed_form.
  rewrite Nat.min_r by done. by rewrite drop_all.
Qed.

(** With more segments than non-blank lines, the last non-blank line takes
    the extra ones. *)
Lemma restore_extras (lines segs : list jsstring) :
  Forall (fun s => s <> []) segs ->
  0 < length (nonBlankLines lines) < length segs ->
  exists k l,
    lines !! k = Some l /\ isBlank l = false
    /\ S (rank lines k) = length (nonBlankLines lines)
    /\ (forall j l', k < j -> lines !! j = Some l' -> isBlank l' = true)
    /\ restore lines segs
       = (<[k := gluedFrom segs (rank lines k)]> (imap (alignedAt segs lines) lines),
          map extraWarningFor (drop (length (nonBlankLines lines)) segs)).
Proof.
  intros Hne [Hpos Hlt].
  destruct (last_nonBlank_line lines Hpos) as (k & l & Hk & Hb & Hr & Hlater).
  exists k, l. do 4 (split; [done|]).
  unfold restore. rewrite correlate_closed_form.
  rewrite Nat.min_l by lia. rewrite (drop_ge (nonBlankLines lines)) by lia.
  destruct (lookup_lt_is_Some_2 segs (rank lines k)) as [seg Hseg]; [lia|].
  rewrite (extras_closed_form _ _ _ k seg).
  - rewrite (gluedFrom_lookup _ _ _ Hseg), Hr. done.
  - rewrite list_lookup_imap, Hk. cbn. unfold alignedAt. by rewrite Hb, Hseg.
  - rewrite Forall_forall in Hne. apply Hne.
    by eapply list_elem_of_lookup_2.
  - intros j y Hj. rewrite list_lookup_imap.
    destruct (lines !! j) as [lj|] eqn:Hlj; cbn; [|done].
    intros [= <-]. unfold alignedAt. by rewrite (Hlater j lj Hj Hlj).
Qed.

(** Lines 205-249 in closed form, for an input with a non-blank line. *)
Lemma restore_closed_form (lines segs : list jsstring) :
  Forall (fun s => s <> []) segs ->
  0 < length (nonBlankLines lines) ->
  fst (restore lines segs) = imap (restoredAt segs lines) lines.
Proof.
  intros Hne Hpos.
  destruct (decide (length segs <= length (nonBlankLines lines))) as [Hle|Hgt].
  - rewrite restore_no_extras by done. cbn [fst].
    apply imap_ext. intros i l Hl. unfold alignedAt, restoredAt.
    destruct (isBlank l) eqn:Hb; [done|].
    destruct (Nat.eqb_spec (S (rank lines i)) (length (nonBlankLines lines)))
      as [Hlast|_]; [|done].
    destruct (segs !! rank lines i) as [seg|] eqn:Hseg.
    + rewrite (gluedFrom_lookup _ _ _ Hseg), drop_ge; [done|]. lia.
    + apply lookup_ge_None in Hseg. by rewrite gluedFrom_ge.
  - destruct (restore_extras lines segs Hne) as (k & l & Hk & Hb & Hr & Hlater & ->);
      [lia|]. cbn [fst].
    apply list_eq. intros i.
    destruct (decide (i = k)) as [->|Hik].
    + rewrite list_lookup_insert_eq by (rewrite length_imap; by eapply lookup_lt_Some).
      rewrite list_lookup_imap, Hk. cbn. unfold restoredAt.
      by rewrite Hb, Hr, Nat.eqb_refl.
    + rewrite list_lookup_insert_ne by done. rewrite !list_lookup_imap.
      destruct (lines !! i) as [li|] eqn:Hli; cbn; [|done]. f_equal.
      unfold alignedAt, restoredAt.
      destruct (isBlank li) eqn:Hbi; [done|].
      destruct (Nat.eqb_spec (S (rank lines i)) (length (nonBlankLines lines)))
        as [Hlast|_]; [|done].
      exfalso. destruct (decide (i < k)) as [Hlt|Hge].
      * pose proof (rank_S lines i li Hli) as HS. rewrite Hbi in HS.
        pose proof (rank_le lines (S i) k). lia.
      * specialize (Hlater i li). rewrite Hlater in Hbi; [done|lia|done].
Qed.

Lemma all_blank_nonBlankLines (lines : list jsstring) :
  forallb isBlank lines = true <-> nonBlankLines lines = [].
Proof.
  induction lines as [|l lines IH]; [done|].
  cbn. destruct (isBlank l); cbn; [done|]. split; intros; done.
Qed.

Lemma not_all_blank (lines : list jsstring) :
  forallb isBlank lines = false <-> 0 < length (nonBlankLines lines).
Proof.
  pose proof (all_blank_nonBlankLines lines) as H.
  destruct (forallb isBlank lines); destruct (nonBlankLines lines) eqn:E;
    cbn; split; intros; try done; try lia.
  - destruct H as [H _]. by specialize (H eq_refl).
  - destruct H as [_ H]. by specialize (H eq_refl).
Qed.

Lemma filter_nonEmpty (l : list jsstring) :
  Forall (fun s => s <> []) (List.filter nonEmpty l).
Proof.
  apply Forall_forall. intros s Hs. apply list_elem_of_In, filter_In in Hs.
  destruct Hs as [_ Hs]. by apply nonEmpty_true.
Qed.

(** No output segment is the empty string. *)
Lemma outputSegments_nonEmpty (text : jsstring) :
  Forall (fun s => s <> []) (outputSegmentsOf text).
Proof.
  unfold outputSegmentsOf.
  destruct (nonEmpty (trim text)) eqn:Hne; [|by constructor].
  destruct (List.filter nonEmpty _) eqn:Hf.
  - constructor; [by apply nonEmpty_true|constructor].
  - rewrite <- Hf. apply filter_nonEmpty.
Qed.

Lemma extras_log (extras arr : list jsstring) (log : list Effect) :
  snd (fold_left appendExtraStep extras (arr, log))
    = log ++ map extraWarningFor extras.
Proof.
  revert arr log. induction extras as [|seg extras IH]; intros arr log.
  - cbn. by rewrite app_nil_r.
  - cbn [fold_left appendExtraStep map].
    destruct (scanBack _ _ _); rewrite IH; by rewrite <- app_assoc.
Qed.

(** All the routine logs while aligning: one warning for each non-blank
    line left without a segment, then one for each segment left over. *)
Lemma restore_log (lines segs : list jsstring) :
  snd (restore lines segs)
    = map mismatchWarningFor (drop (length segs) (nonBlankLines lines))
      ++ map extraWarningFor
           (drop (length (nonBlankLines lines) `min` length segs) segs).
Proof.
  unfold restore. rewrite correlate_closed_form. apply extras_log.
Qed.

Lemma dispatches_app (es es' : list Effect) :
  dispatches (es ++ es') = dispatches es ++ dispatches es'.
Proof. apply omap_app. Qed.

Lemma warningsOf_app (es es' : list Effect) :
  warningsOf (es ++ es') = warningsOf es ++ warningsOf es'.
Proof. apply List.filter_app. Qed.

Lemma restore_log_dispatches (lines segs : list jsstring) :
  dispatches (snd (restore lines segs)) = [].
Proof.
  rewrite restore_log, dispatches_app.
  assert (H : forall A (f : A -> jsstring * option jsstring) (l : list A),
             dispatches (map (fun a => EWarn (fst (f a)) (snd (f a))) l) = []).
  { intros A f l. by induction l. }
  rewrite (H _ (fun l => (mismatchWarning, Some (trim l)))).
  by rewrite (H _ (fun s => (extraWarning, Some s))).
Qed.

Lemma restore_log_warnings (lines segs : list jsstring) :
  warningsOf (snd (restore lines segs)) = snd (restore lines segs).
Proof.
  rewrite restore_log, warningsOf_app. f_equal.
  - induction (drop _ (nonBlankLines lines)) as [|x xs IH]; [done|].
    cbn. f_equal. exact IH.
  - induction (drop _ segs) as [|x xs IH]; [done|].
    cbn. f_equal. exact IH.
Qed.

Lemma trace_pageAfter (p : Page) (html text : jsstring)
    (log : list Effect) (v : jsstring) :
  trace (pageAfter p html text log v)
    = trace p ++ log ++ (if strictEq text v then [] else outputEvents).
Proof.
  unfold pageAfter. destruct (strictEq text v); cbn; [|done].
  by rewrite app_nil_r.
Qed.

Lemma outputText_pageAfter (p : Page) (html text : jsstring)
    (log : list Effect) (v : jsstring) :
  outputText p = Some text ->
  outputText (pageAfter p html text log v) = Some v.
Proof.
  intros Hout. unfold pageAfter. destruct (strictEq text v) eqn:He; cbn; [|done].
  apply strictEq_true in He. by rewrite Hout, He.
Qed.

(** The effects of a pass that gets past both guards. *)
Lemma effects_of_pass (p : Page) (html text : jsstring) :
  inputHTML p = Some html ->
  outputText p = Some text ->
  unchanged p html text = false ->
  effectsOf processTranslationLineBreaks p
    = (if forallb isBlank (inputLinesOf html) then []
       else snd (restore (inputLinesOf html) (outputSegmentsOf text)))
      ++ (if strictEq text (resegment html text) then [] else outputEvents).
Proof.
  intros Hin Hout Hg. apply effectsOf_app. unfold finalPage, resegment.
  destruct (forallb isBlank (inputLinesOf html)) eqn:Hb.
  - rewrite (run_all_blank p html text Hin Hout Hg Hb). cbn [snd].
    by rewrite trace_pageAfter.
  - rewrite (run_segmented p html text Hin Hout Hg Hb). cbn [snd].
    by rewrite trace_pageAfter.
Qed.

(** C4. The output node is written only when its text differs from the
    resegmented text: when the two are equal the node keeps its text and
    no event is dispatched; and whenever the node's text changes or an
    event is dispatched, the two differed and the node now holds the
    resegmented text. *)
Theorem output_written_only_when_different (p : Page) (html text : jsstring) :
  inputHTML p = Some html ->
  outputText p = Some text ->
  (resegment html text = text ->
     outputText (finalPage processTranslationLineBreaks p) = Some text
     /\ dispatches (effectsOf processTranslationLineBreaks p) = [])
  /\ (outputText (finalPage processTranslationLineBreaks p) <> Some text
      \/ dispatches (effectsOf processTranslationLineBreaks p) <> [] ->
      resegment html text <> text
      /\ outputText (finalPage processTranslationLineBreaks p)
         = Some (resegment html text)
      /\ dispatches (effectsOf processTranslationLineBreaks p)
         = dispatches outputEvents).
Proof.
  intros Hin Hout.
  destruct (unchanged p html text) eqn:Hg.
  { (* skipped by the guard of line 170 *)
    pose proof (run_unchanged p html text Hin Hout Hg) as Hrun.
    assert (He : effectsOf processTranslationLineBreaks p = []).
    { apply effectsOf_nil. unfold finalPage. by rewrite Hrun. }
    unfold finalPage. rewrite He, Hrun. cbn [snd dispatches omap].
    split; [done|]. intros [H|H]; done. }
  pose proof (run_processed p html text Hin Hout Hg) as Hres.
  pose proof (effects_of_pass p html text Hin Hout Hg) as Heff.
  assert (Hlog : dispatches
            (if forallb isBlank (inputLinesOf html) then []
             else snd (restore (inputLinesOf html) (outputSegmentsOf text))) = []).
  { destruct (forallb _ _); [done|apply restore_log_dispatches]. }
  rewrite Hres, Heff, dispatches_app, Hlog. cbn [app].
  destruct (strictEq text (resegment html text)) eqn:He.
  - apply strictEq_true in He. split; [by rewrite <- He|].
    rewrite <- He. intros [H|H]; done.
  - apply strictEq_false in He. split; [congruence|].
    intros _. split; [congruence|done].
Qed.

Lemma output_written_only_when_different_witness :
  let p := freshPage (js "one<br>two") (js "un.
deux.") in
  outputText (finalPage processTranslationLineBreaks p) = Some (js "un.
deux.")
  /\ dispatches (effectsOf processTranslationLineBreaks p) = [].
Proof.
  intros p.
  apply (output_written_only_when_different p (js "one<br>two") (js "un.
deux."));
    reflexivity.
Defined.

(** ** An input whose lines are all blank *)

(** C9, as it holds.  For an all-blank input (both elements present): a
    pass that is not skipped by the unchanged-content guard leaves the
    empty string in the output node, writing it (and dispatching the three
    events) exactly when the node was not empty already, and logs nothing;
    with or without the guard the node never receives a non-empty text. *)
Theorem all_blank_input_clears_output (p : Page) (html text : jsstring) :
  inputHTML p = Some html ->
  outputText p = Some text ->
  forallb isBlank (inputLinesOf html) = true ->
  (unchanged p html text = false ->
     outputText (finalPage processTranslationLineBreaks p) = Some []
     /\ effectsOf processTranslationLineBreaks p
        = (if strictEq text [] then [] else outputEvents)
     /\ finalPage processTranslationLineBreaks p = pageAfter p html text [] [])
  /\ (outputText (finalPage processTranslationLineBreaks p) = Some []
      \/ finalPage processTranslationLineBreaks p = p).
Proof.
  intros Hin Hout Hb.
  destruct (unchanged p html text) eqn:Hg.
  - split; [done|]. right. unfold finalPage.
    by rewrite (run_unchanged p html text Hin Hout Hg).
  - assert (Hres : outputText (finalPage processTranslationLineBreaks p) = Some []).
    { rewrite (run_processed p html text Hin Hout Hg). unfold resegment.
      by rewrite Hb. }
    split; [|by left]. intros _. split; [done|]. split.
    + rewrite (effects_of_pass p html text Hin Hout Hg). unfold resegment.
      by rewrite Hb.
    + unfold finalPage. by rewrite (run_all_blank p html text Hin Hout Hg Hb).
Qed.

Lemma all_blank_input_clears_output_witness :
  let p := freshPage (js " <br> ") (js "stale") in
  outputText (finalPage processTranslationLineBreaks p) = Some []
  /\ effectsOf processTranslationLineBreaks p = outputEvents.
Proof.
  intros p.
  destruct (all_blank_input_clears_output p (js " <br> ") (js "stale"))
    as [H _]; [reflexivity..|].
  destruct H as (Ho & He & _); [reflexivity|].
  split; [exact Ho | exact He].
Defined.

(** C9 as stated fails where the guard of line 170 fires.  The routine
    clears a stale output for an empty input; the host page then puts the
    same text back; the next pass sees the retained pair again and
    returns, leaving the non-empty text in place. *)
Lemma all_blank_input_skipped_by_guard :
  let p0 := freshPage (js "") (js "stale") in
  let p1 := finalPage processTranslationLineBreaks p0 in
  let p2 := withOutputText p1 (Some (js "stale")) in
  forallb isBlank (inputLinesOf (js "")) = true
  /\ outputText p1 = Some []
  /\ inputHTML p2 = Some (js "")
  /\ outputText p2 = Some (js "stale")
  /\ outputText (finalPage processTranslationLineBreaks p2)
     = Some (js "stale")
  /\ effectsOf processTranslationLineBreaks p2 = [].
Proof. vm_compute. repeat split. Qed.

(** ** Fewer segments than non-blank lines *)

(** C2. When a pass segments the output text into fewer segments than the
    input has non-blank lines, it logs the mismatch warning once for each
    non-blank line left without a segment (in order, with the trimmed
    line), and [restoredOutputArray] gets an empty string for each of
    them.  Nothing else is done about the mismatch: the array is what the
    [for] loop pushed, the [while] loop of lines 227-249 adds nothing, and
    the only other effects are those of the final write. *)
Theorem fewer_segments_than_lines (p : Page) (html text : jsstring) :
  inputHTML p = Some html ->
  outputText p = Some text ->
  unchanged p html text = false ->
  length (outputSegmentsOf text) < length (nonBlankLines (inputLinesOf html)) ->
  let lines := inputLinesOf html in
  let segs := outputSegmentsOf text in
  let unmatched := drop (length segs) (nonBlankLines lines) in
  let restoredOutputArray := fst (restore lines segs) in
  unmatched <> []
  /\ warningsOf (effectsOf processTranslationLineBreaks p)
     = map mismatchWarningFor unmatched
  /\ restoredOutputArray = imap (alignedAt segs lines) lines
  /\ (forall i line,
        lines !! i = Some line -> isBlank line = false ->
        length segs <= rank lines i ->
        restoredOutputArray !! i = Some [])
  /\ effectsOf processTranslationLineBreaks p
     = map mismatchWarningFor unmatched
       ++ (if strictEq text (postProcess (join restoredOutputArray)) then []
           else outputEvents)
  /\ outputText (finalPage processTranslationLineBreaks p)
     = Some (postProcess (join restoredOutputArray)).
Proof.
  intros Hin Hout Hg Hlt. cbv zeta.
  set (lines := inputLinesOf html) in *.
  set (segs := outputSegmentsOf text) in *.
  set (unmatched := drop (length segs) (nonBlankLines lines)).
  set (arr := fst (restore lines segs)).
  assert (Hb : forallb isBlank lines = false) by (apply not_all_blank; lia).
  assert (Hrestore : restore lines segs
            = (imap (alignedAt segs lines) lines, map mismatchWarningFor unmatched)).
  { apply restore_no_extras. lia. }
  assert (Harr : arr = imap (alignedAt segs lines) lines).
  { unfold arr. by rewrite Hrestore. }
  assert (Hres : resegment html text = postProcess (join arr)).
  { unfold resegment. fold lines. by rewrite Hb. }
  assert (Heff : effectsOf processTranslationLineBreaks p
            = map mismatchWarningFor unmatched
              ++ (if strictEq text (postProcess (join arr)) then []
                  else outputEvents)).
  { rewrite (effects_of_pass p html text Hin Hout Hg). fold lines segs.
    by rewrite Hb, Hrestore, Hres. }
  split.
  { intros Hnil. apply (f_equal length) in Hnil.
    unfold unmatched in Hnil. rewrite length_drop in Hnil. cbn in Hnil. lia. }
  split.
  { rewrite Heff, warningsOf_app.
    replace (warningsOf (if strictEq text (postProcess (join arr)) then []
                         else outputEvents)) with (@nil Effect)
      by (by destruct (strictEq _ _)).
    rewrite app_nil_r.
    pose proof (restore_log_warnings lines segs) as Hw.
    by rewrite Hrestore in Hw. }
  split; [done|]. split.
  { intros i line Hl Hbl Hrank. rewrite Harr, list_lookup_imap, Hl. cbn.
    unfold alignedAt. rewrite Hbl.
    by rewrite (lookup_ge_None_2 segs (rank lines i)). }
  split; [done|].
  rewrite (run_processed p html text Hin Hout Hg). by rewrite Hres.
Qed.

Lemma fewer_segments_than_lines_witness :
  let p := freshPage (js "one<br><br>two<br>three") (js "un.") in
  warningsOf (effectsOf processTranslationLineBreaks p)
    = [mismatchWarningFor (js "two"); mismatchWarningFor (js "three")]
  /\ fst (restore (inputLinesOf (js "one<br><br>two<br>three"))
                  (outputSegmentsOf (js "un.")))
     = [js "un."; []; []; []].
Proof.
  intros p.
  destruct (fewer_segments_than_lines p (js "one<br><br>two<br>three") (js "un."))
    as (_ & Hw & Harr & _); [reflexivity..|apply Nat.ltb_lt; reflexivity|].
  split; [exact Hw | exact Harr].
Defined.

(** ** Clipboard *)

Lemma run_fallbackCopyText (text : jsstring) (p : Page) :
  fallbackCopyText text p
    = (Normal tt, withTrace p (trace p ++ fallbackEffects p text)).
Proof.
  unfold fallbackEffects.
  cbv [fallbackCopyText tryFinally tryCatch execCommandCopy bind get emit
       modify throw].
  cbn [withTrace execCommandError trace].
  destruct (execCommandError p) as [e|]; cbn [withTrace trace];
    unfold withTrace; cbn; by rewrite <- !app_assoc.
Qed.

Lemma run_rejection_handler (err text : jsstring) (p : Page) :
  runJob (RejectionHandler err text) p
    = (Normal tt,
       withTrace p
         (trace p
          ++ EError (js "Failed to copy text using Clipboard API: ") err
             :: fallbackEffects p text)).
Proof.
  cbv [runJob bind emit modify]. rewrite run_fallbackCopyText.
  unfold withTrace. cbn. by rewrite <- app_assoc.
Qed.

(** C5.  [copyPlainText] always returns normally, and so does the
    rejection handler it registers.  With the Clipboard API present the
    text is written through it, and the fallback runs (once, from the
    handler) exactly when that write rejects; with the API absent nothing
    is written through it and the fallback runs once, at once.  Below,
    [copyPlainText] runs on a page with no pending reaction and the
    microtask queue is then drained. *)
Theorem copyPlainText_falls_back (p : Page) (text : jsstring) :
  microtasks p = [] ->
  let settled := drainMicrotasks (finalPage (copyPlainText text) p) in
  completion (copyPlainText text) p = Normal tt
  /\ (forall j q, completion (runJob j) q = Normal tt)
  /\ clipboardWrites (effectsBetween p settled)
     = match clipboardWriteText p with Some _ => [text] | None => [] end
  /\ fallbackCalls (effectsBetween p settled)
     = match clipboardWriteText p with
       | Some writeText =>
           match writeText text with Some _ => [text] | None => [] end
       | None => [text]
       end
  /\ effectsBetween p settled
     = match clipboardWriteText p with
       | Some writeText =>
           EClipboardWrite text
           :: match writeText text with
              | Some err =>
                  EError (js "Failed to copy text using Clipboard API: ") err
                  :: fallbackEffects p text
              | None => []
              end
       | None => fallbackEffects p text
       end.
Proof.
  intros Hq settled.
  assert (Hjob : forall j q, completion (runJob j) q = Normal tt).
  { intros [err t] q. unfold completion. by rewrite run_rejection_handler. }
  assert (Hfb : forall q t, fallbackCalls (fallbackEffects q t) = [t]).
  { intros q t. unfold fallbackEffects. by destruct (execCommandError q). }
  assert (Hcw : forall q t, clipboardWrites (fallbackEffects q t) = []).
  { intros q t. unfold fallbackEffects. by destruct (execCommandError q). }
  assert (Hrun :
    completion (copyPlainText text) p = Normal tt
    /\ effectsBetween p settled
       = match clipboardWriteText p with
         | Some writeText =>
             EClipboardWrite text
             :: match writeText text with
                | Some err =>
                    EError (js "Failed to copy text using Clipboard API: ") err
                    :: fallbackEffects p text
                | None => []
                end
         | None => fallbackEffects p text
         end).
  { unfold settled, completion, finalPage, effectsBetween, drainMicrotasks.
    cbv [copyPlainText bind get].
    destruct (clipboardWriteText p) as [writeText|] eqn:Hapi.
    - cbv [emit modify]. destruct (writeText text) as [err|] eqn:Hw.
      + cbv [enqueueMicrotask modify]. cbn [fst snd withTrace withMicrotasks microtasks].
        rewrite Hq. cbn [app runJobs]. unfold finalPage.
        rewrite run_rejection_handler. cbn [snd withTrace trace].
        split; [done|].
        cbn [withMicrotasks withTrace trace]. unfold fallbackEffects.
        cbn [execCommandError]. rewrite <- app_assoc. by rewrite drop_app_length.
      + cbn [ret fst snd withTrace microtasks]. rewrite Hq. cbn [runJobs withMicrotasks withTrace trace].
        split; [done|]. by rewrite drop_app_length.
    - rewrite run_fallbackCopyText. cbn [fst snd withTrace microtasks].
      rewrite Hq. cbn [runJobs withMicrotasks withTrace trace].
      split; [done|]. by rewrite drop_app_length. }
  destruct Hrun as [Hc He]. split; [done|]. split; [done|].
  rewrite He. destruct (clipboardWriteText p) as [writeText|].
  - assert (Hc1 : forall e es, clipboardWrites (e :: es)
        = match e with EClipboardWrite t => [t] | _ => [] end
          ++ clipboardWrites es) by (by intros [] es).
    assert (Hf1 : forall e es, fallbackCalls (e :: es)
        = match e with EAppendTextarea t => [t] | _ => [] end
          ++ fallbackCalls es) by (by intros [] es).
    destruct (writeText text) as [err|]; rewrite ?Hc1, ?Hf1, ?Hfb, ?Hcw; done.
  - by rewrite Hfb, Hcw.
Qed.

Lemma copyPlainText_falls_back_witness :
  let p := mkPage None (Some (js "Bonjour")) None true
             (Some (fun _ => Some (js "NotAllowedError"))) (Some (js "denied"))
             [] [] [] [] in
  completion (copyPlainText (js "Bonjour")) p = Normal tt
  /\ fallbackCalls
       (effectsBetween p
          (drainMicrotasks (finalPage (copyPlainText (js "Bonjour")) p)))
     = [js "Bonjour"].
Proof.
  intros p.
  destruct (copyPlainText_falls_back p (js "Bonjour")) as (Hc & _ & _ & Hf & _);
    [reflexivity|].
  split; [exact Hc | exact Hf].
Defined.

(** ** Tone and keyboard *)

Lemma on_bing : includes (js "bing.com") hostname = true.
Proof. reflexivity. Qed.

Lemma run_selectTone_same (toneText : jsstring) (p : Page) :
  toneValue p = Some toneText ->
  selectTone toneText p = (Normal tt, p).
Proof.
  intros Hv. cbv [selectTone bind get]. rewrite on_bing. cbn [negb].
  by rewrite Hv, strictEq_refl.
Qed.

Lemma run_selectTone_other (toneText value : jsstring) (p : Page) :
  toneValue p = Some value -> value <> toneText ->
  selectTone toneText p
    = (Normal tt,
       withTrace (withToneValue p (Some toneText))
         (trace p ++ [EDispatch ToneSelect (js "change");
                      ELog (js "Tone set to: " ++ toneText)])).
Proof.
  intros Hv Hne. cbv [selectTone bind get]. rewrite on_bing. cbn [negb].
  apply strictEq_false in Hne. rewrite Hv, Hne.
  cbv [emit modify]. unfold withTrace, withToneValue. cbn.
  by rewrite <- app_assoc.
Qed.

Lemma bind_ret_tt (m : M unit) (p : Page) :
  bind m (fun _ => ret tt) p = m p.
Proof.
  unfold bind, ret. by destruct (m p) as [[[]|e] p'].
Qed.

Lemma key_z_s : strictEq (js "z") (js "s") = false. Proof. reflexivity. Qed.
Lemma key_z_a : strictEq (js "z") (js "a") = false. Proof. reflexivity. Qed.
Lemma key_s_a : strictEq (js "s") (js "a") = false. Proof. reflexivity. Qed.

(** The three [if]s of [handleKeydown] exclude one another. *)
Lemma handleKeydown_cases (event : KeyboardEvent) (p : Page) :
  handleKeydown event p
    = if altKey event && strictEq (key event) (js "z") then
        (emit EPreventDefault ;;
         match outputText p with
         | Some t => if nonEmpty t then copyPlainText (trim t) else ret tt
         | None => ret tt
         end) p
      else if altKey event && strictEq (key event) (js "s") then
        (emit EPreventDefault ;;
         clickElement (if swapButton p then Some SwapButton else None)) p
      else if altKey event && strictEq (key event) (js "a") then
        (emit EPreventDefault ;;
         match toneValue p with
         | Some currentTone => selectTone (otherTone currentTone)
         | None =>
             emit (EWarn (js "Tone select element (#tta_tonesl) not found.") None)
         end) p
      else (Normal tt, p).
Proof.
  destruct event as [alt k]. cbn [altKey key]. unfold handleKeydown.
  cbn [altKey key]. destruct alt; cbn [andb]; [|done].
  destruct (strictEq k (js "z")) eqn:Hz.
  { apply strictEq_true in Hz. subst k. rewrite key_z_s, key_z_a.
    cbn [when]. change (bind (ret tt) (fun _ => ret tt)) with
      (fun q : Page => (Normal tt, q)).
    rewrite (bind_ret_tt _ p).
    cbv [bind emit modify getTranslatedText get ret].
    cbn [outputText withTrace]. reflexivity. }
  destruct (strictEq k (js "s")) eqn:Hs.
  { apply strictEq_true in Hs. subst k. rewrite key_s_a.
    cbn [when]. unfold bind at 1. cbn [ret]. rewrite (bind_ret_tt _ p).
    cbv [bind emit modify get]. cbn [swapButton withTrace]. reflexivity. }
  destruct (strictEq k (js "a")) eqn:Ha; [|done].
  cbn [when]. unfold bind at 1. cbn [ret]. unfold bind at 1. cbn [ret].
  cbv [bind emit modify get]. cbn [toneValue withTrace].
  destruct (toneValue p) as [v|]; [|done].
  unfold otherTone.
  destruct (strictEq v (js "Casual")); [done|].
  by destruct (strictEq v (js "Formal")).
Qed.

Lemma otherTone_differs (v : jsstring) : v <> otherTone v.
Proof.
  unfold otherTone. destruct (strictEq v (js "Casual")) eqn:Hc.
  - apply strictEq_true in Hc. by subst v.
  - by apply strictEq_false in Hc.
Qed.

Lemma toneValue_after_toggle (p : Page) (v : jsstring) :
  toneValue p = Some v ->
  toneValue (finalPage (handleKeydown (altKeyPress "a")) p)
    = Some (otherTone v).
Proof.
  intros Hv. unfold finalPage. rewrite handleKeydown_cases.
  change (altKey (altKeyPress "a") && strictEq (key (altKeyPress "a")) (js "z"))
    with false.
  change (altKey (altKeyPress "a") && strictEq (key (altKeyPress "a")) (js "s"))
    with false.
  change (altKey (altKeyPress "a") && strictEq (key (altKeyPress "a")) (js "a"))
    with true.
  cbv iota. rewrite Hv. cbv [bind emit modify].
  rewrite (run_selectTone_other _ v); [done|done|apply otherTone_differs].
Qed.

(** C10.  With the tone selector on the page, Alt+A takes the tone
    'Casual' to 'Formal', 'Formal' to 'Casual' and any other value to
    'Casual'; so the tone after one toggle is 'Casual' or 'Formal', and
    two toggles from either of them give the tone back.  [selectTone]
    asked for the tone already selected leaves the page as it is: nothing
    is written and no event is dispatched. *)
Theorem tone_toggle (p : Page) (v : jsstring) :
  toneValue p = Some v ->
  let toggled q := finalPage (handleKeydown (altKeyPress "a")) q in
  (v = js "Casual" -> toneValue (toggled p) = Some (js "Formal"))
  /\ (v = js "Formal" -> toneValue (toggled p) = Some (js "Casual"))
  /\ (v <> js "Casual" -> v <> js "Formal" ->
      toneValue (toggled p) = Some (js "Casual"))
  /\ (toneValue (toggled p) = Some (js "Casual")
      \/ toneValue (toggled p) = Some (js "Formal"))
  /\ (v = js "Casual" \/ v = js "Formal" ->
      toneValue (toggled (toggled p)) = Some v)
  /\ selectTone v p = (Normal tt, p)
  /\ dispatches (effectsOf (selectTone v) p) = [].
Proof.
  intros Hv toggled.
  pose proof (toneValue_after_toggle p v Hv) as H1. fold (toggled p) in H1.
  pose proof (toneValue_after_toggle (toggled p) _ H1) as H2.
  fold (toggled (toggled p)) in H2.
  rewrite H1, H2. unfold otherTone.
  split; [by intros ->|]. split; [by intros ->|].
  split.
  { intros Hc _. apply strictEq_false in Hc. by rewrite Hc. }
  split.
  { destruct (strictEq v (js "Casual")); [by right|by left]. }
  split.
  { intros [->| ->]; reflexivity. }
  pose proof (run_selectTone_same v p Hv) as Hsame.
  split; [done|].
  rewrite (effectsOf_nil (selectTone v) p); [done|].
  unfold finalPage. by rewrite Hsame.
Qed.

Lemma tone_toggle_witness :
  let p := freshPage (js "Hello") (js "Bonjour") in
  let toggled q := finalPage (handleKeydown (altKeyPress "a")) q in
  toneValue (toggled p) = Some (js "Casual")
  /\ toneValue (toggled (toggled p)) = Some (js "Formal")
  /\ toneValue (toggled (toggled (toggled p))) = Some (js "Casual").
Proof.
  intros p toggled.
  destruct (tone_toggle p (js "Standard")) as (_ & _ & H1 & _); [reflexivity|].
  destruct (tone_toggle (toggled p) (js "Casual")) as (H2 & _ & _ & _ & H3 & _).
  { apply H1; discriminate. }
  split; [apply H1; discriminate|]. split; [by apply H2|].
  apply H3. by left.
Defined.

(** ** Keyboard shortcuts *)

(** C7, as it holds.  The handler acts on Alt+z, Alt+s and Alt+a and on
    nothing else, and calls [preventDefault] for these three only.  What
    it does for each is guarded: Alt+z copies the trimmed translated text
    when the output element is there and its text is not empty; Alt+s
    clicks the swap button when there is one; Alt+a toggles the tone when
    the tone selector is there, and logs a warning otherwise. *)
Theorem handleKeydown_shortcuts (event : KeyboardEvent) (p : Page) :
  (altKey event = true -> key event = js "z" ->
     (forall t, outputText p = Some t -> t <> [] ->
        handleKeydown event p
          = (emit EPreventDefault ;; copyPlainText (trim t)) p)
     /\ (outputText p = None \/ outputText p = Some [] ->
           handleKeydown event p = emit EPreventDefault p))
  /\ (altKey event = true -> key event = js "s" ->
        handleKeydown event p
          = (emit EPreventDefault ;;
             if swapButton p then emit (EClick SwapButton) else ret tt) p)
  /\ (altKey event = true -> key event = js "a" ->
        (forall v, toneValue p = Some v ->
           handleKeydown event p
             = (emit EPreventDefault ;; selectTone (otherTone v)) p)
        /\ (toneValue p = None ->
              handleKeydown event p
                = (emit EPreventDefault ;;
                   emit (EWarn (js "Tone select element (#tta_tonesl) not found.")
                           None)) p))
  /\ (altKey event = false
      \/ (key event <> js "z" /\ key event <> js "s" /\ key event <> js "a") ->
        handleKeydown event p = (Normal tt, p)
        /\ effectsOf (handleKeydown event) p = []).
Proof.
  rewrite handleKeydown_cases. destruct event as [alt k]. cbn [altKey key].
  split.
  { intros -> ->. rewrite strictEq_refl. cbn [andb]. split.
    - intros t Ht Hne. cbv [bind emit modify]. cbn [outputText withTrace].
      rewrite Ht. apply nonEmpty_true in Hne. by rewrite Hne.
    - intros [Hn|Hn]; cbv [bind emit modify ret]; rewrite Hn; reflexivity. }
  split.
  { intros -> ->. cbn [andb].
    change (strictEq (js "s") (js "z")) with false.
    rewrite strictEq_refl. cbv iota. cbv [bind emit modify clickElement].
    by destruct (swapButton p). }
  split.
  { intros -> ->. cbn [andb].
    change (strictEq (js "a") (js "z")) with false.
    change (strictEq (js "a") (js "s")) with false.
    rewrite strictEq_refl. cbv iota. split.
    - intros v Hv. cbv [bind emit modify]. by rewrite Hv.
    - intros Hn. cbv [bind emit modify]. by rewrite Hn. }
  intros Hother.
  assert (Hrun : (if alt && strictEq k (js "z") then
        (emit EPreventDefault ;;
         match outputText p with
         | Some t => if nonEmpty t then copyPlainText (trim t) else ret tt
         | None => ret tt
         end) p
      else if alt && strictEq k (js "s") then
        (emit EPreventDefault ;;
         clickElement (if swapButton p then Some SwapButton else None)) p
      else if alt && strictEq k (js "a") then
        (emit EPreventDefault ;;
         match toneValue p with
         | Some currentTone => selectTone (otherTone currentTone)
         | None =>
             emit (EWarn (js "Tone select element (#tta_tonesl) not found.") None)
         end) p
      else (Normal tt, p)) = (Normal tt, p)).
  { destruct Hother as [->|(Hz & Hs & Ha)]; [done|].
    apply strictEq_false in Hz, Hs, Ha. rewrite Hz, Hs, Ha.
    by rewrite !andb_false_r. }
  split; [exact Hrun|].
  apply effectsOf_nil. unfold finalPage.
  rewrite handleKeydown_cases. cbn [altKey key]. by rewrite Hrun.
Qed.

Lemma handleKeydown_shortcuts_witness :
  let p := freshPage (js "Hello") (js " Bonjour ") in
  effectsOf (handleKeydown (altKeyPress "z")) p
    = EPreventDefault :: fallbackEffects p (js "Bonjour")
  /\ effectsOf (handleKeydown (altKeyPress "s")) p
     = [EPreventDefault; EClick SwapButton]
  /\ effectsOf (handleKeydown (mkKey false (js "z"))) p = []
  /\ effectsOf (handleKeydown (altKeyPress "Z")) p = [].
Proof.
  intros p.
  destruct (handleKeydown_shortcuts (altKeyPress "z") p) as (Hz & _).
  destruct (Hz eq_refl eq_refl) as [Hz1 _].
  specialize (Hz1 (js " Bonjour ") eq_refl ltac:(discriminate)).
  destruct (handleKeydown_shortcuts (altKeyPress "s") p) as (_ & Hs & _).
  specialize (Hs eq_refl eq_refl).
  destruct (handleKeydown_shortcuts (mkKey false (js "z")) p) as (_ & _ & _ & Ho).
  destruct (Ho (or_introl eq_refl)) as [_ Ho1].
  destruct (handleKeydown_shortcuts (altKeyPress "Z") p) as (_ & _ & _ & HZ).
  destruct HZ as [_ HZ1].
  { right. repeat split; discriminate. }
  split; [|split; [|split; [exact Ho1|exact HZ1]]].
  - unfold effectsOf, finalPage. rewrite Hz1. reflexivity.
  - unfold effectsOf, finalPage. rewrite Hs. reflexivity.
Defined.

(** C7 as stated fails on Alt+z over an output region that is there but
    empty: [preventDefault] is called and nothing is copied, neither
    through the Clipboard API nor through the fallback. *)
Lemma alt_z_on_empty_output_copies_nothing :
  let p := freshPage (js "Hello") (js "") in
  effectsOf (handleKeydown (altKeyPress "z")) p = [EPreventDefault]
  /\ effectsOf (emit EPreventDefault ;; copyPlainText (trim (js ""))) p
     = EPreventDefault :: fallbackEffects p (js "")
  /\ clipboardWrites (effectsOf (handleKeydown (altKeyPress "z")) p) = []
  /\ fallbackCalls (effectsOf (handleKeydown (altKeyPress "z")) p) = [].
Proof. vm_compute. repeat split. Qed.

(** ** Counting lines *)

Lemma countLF_app (s t : jsstring) : countLF (s ++ t) = countLF s + countLF t.
Proof. unfold countLF. by rewrite List.filter_app, length_app. Qed.

Lemma countLF_cons (c : N) (s : jsstring) :
  countLF (c :: s) = (if N.eqb Char.LF c then 1 else 0) + countLF s.
Proof. unfold countLF. cbn [List.filter]. by destruct (N.eqb Char.LF c). Qed.

Lemma LF_notin (s : jsstring) : countLF s = 0 <-> Char.LF ∉ s.
Proof.
  induction s as [|c s IH]; [split; [intros _; apply not_elem_of_nil|done]|].
  rewrite countLF_cons, not_elem_of_cons.
  destruct (N.eqb_spec Char.LF c) as [->|Hne].
  - split; [lia|]. by intros [? _].
  - cbn. rewrite IH. split; [done|]. by intros [_ ?].
Qed.

(** A text has one line more than it has newlines. *)
Lemma length_split (s : jsstring) : length (split s) = S (countLF s).
Proof.
  induction s as [|c s IH]; [done|].
  rewrite countLF_cons. cbn [split]. rewrite (N.eqb_sym Char.LF c).
  destruct (N.eqb c Char.LF); [cbn; by rewrite IH|].
  destruct (split s) as [|l ls]; cbn in *; lia.
Qed.

Lemma split_lines_no_LF (s : jsstring) :
  Forall (fun l => countLF l = 0) (split s).
Proof.
  induction s as [|c s IH]; [by repeat constructor|].
  cbn [split]. destruct (N.eqb c Char.LF) eqn:Hc.
  - by constructor.
  - assert (Hc' : countLF [c] = 0)
      by (by rewrite countLF_cons, (N.eqb_sym Char.LF c), Hc).
    destruct (split s) as [|l ls]; [by repeat constructor|].
    inversion IH; subst. constructor; [|done].
    change (c :: l) with ([c] ++ l). rewrite countLF_app. lia.
Qed.

Lemma countLF_join (lines : list jsstring) :
  lines <> [] ->
  S (countLF (join lines)) = length lines + countLF (concat lines).
Proof.
  induction lines as [|l [|l' ls] IH]; [done| |]; intros _.
  - cbn. by rewrite app_nil_r.
  - change (join (l :: l' :: ls)) with (l ++ Char.LF :: join (l' :: ls)).
    change (concat (l :: l' :: ls)) with (l ++ concat (l' :: ls)).
    rewrite !countLF_app, countLF_cons, N.eqb_refl.
    specialize (IH ltac:(done)). cbn [length] in *. lia.
Qed.

Lemma countLF_replaceDotSpaceFrom (b : bool) (s : jsstring) :
  countLF (replaceDotSpaceFrom b s) <= countLF s.
Proof.
  revert b. induction s as [|c s IH]; intros b; [done|].
  cbn [replaceDotSpaceFrom]. rewrite countLF_cons.
  destruct (b && Char.isWhiteSpace c).
  - specialize (IH true). lia.
  - rewrite countLF_cons. specialize (IH (N.eqb c Char.DOT)). lia.
Qed.

Lemma fixEmailLine_no_LF (l : jsstring) :
  countLF l = 0 -> countLF (fixEmailLine l) = 0.
Proof.
  intros Hl. unfold fixEmailLine, replaceDotSpace.
  destruct (includes _ _); [|done].
  pose proof (countLF_replaceDotSpaceFrom false l). lia.
Qed.

Lemma concat_no_LF (lines : list jsstring) :
  Forall (fun l => countLF l = 0) lines -> countLF (concat lines) = 0.
Proof.
  induction 1 as [|l ls Hl _ IH]; [done|].
  cbn [concat]. rewrite countLF_app. lia.
Qed.

(** The e-mail post-processing keeps the number of lines. *)
Lemma countLF_postProcess (s : jsstring) :
  countLF (postProcess s) = countLF s.
Proof.
  unfold postProcess.
  assert (Hne : map fixEmailLine (split s) <> []).
  { intros H. apply (f_equal length) in H.
    rewrite length_map, length_split in H. done. }
  pose proof (countLF_join _ Hne) as Hj.
  rewrite length_map, length_split in Hj.
  rewrite concat_no_LF in Hj; [lia|].
  apply Forall_map. eapply Forall_impl; [apply split_lines_no_LF|].
  intros l Hl. by apply fixEmailLine_no_LF.
Qed.

Lemma countLF_glue (line segment : jsstring) :
  countLF (glue line segment) = countLF line + countLF segment.
Proof.
  unfold glue. destruct (_ && _); rewrite !countLF_app; [|done].
  change (countLF [Char.SPACE]) with 0. lia.
Qed.

Lemma countLF_fold_glue (extras : list jsstring) (line : jsstring) :
  countLF (fold_left glue extras line)
    = countLF line + countLF (concat extras).
Proof.
  revert line. induction extras as [|seg extras IH]; intros line.
  - cbn [fold_left concat]. change (countLF []) with 0. lia.
  - cbn [fold_left concat]. rewrite IH, countLF_glue, countLF_app. lia.
Qed.

(** What the [for] loop pushed, put end to end, is the segments it used. *)
Lemma concat_aligned (segs lines : list jsstring) :
  concat (imap (alignedAt segs lines) lines)
    = concat (take (length (nonBlankLines lines)) segs).
Proof.
  induction lines as [|l lines IH] using rev_ind; [done|].
  rewrite imap_app, alignedAt_snoc, concat_app, IH. cbn [imap concat].
  rewrite Nat.add_0_r, alignedAt_last, nonBlankLines_snoc, length_app.
  destruct (isBlank l); cbn [length].
  - by rewrite Nat.add_0_r, !app_nil_r.
  - rewrite Nat.add_1_r, app_nil_r.
    destruct (segs !! length (nonBlankLines lines)) as [seg|] eqn:Hseg.
    + rewrite (take_S_r _ _ _ Hseg), concat_app. cbn. by rewrite app_nil_r.
    + apply lookup_ge_None in Hseg. rewrite !take_ge by lia. by rewrite app_nil_r.
Qed.

(** Both loops together use every segment: the restored array holds the
    newlines of the segments, no more and no fewer. *)
Lemma countLF_restore (lines segs : list jsstring) :
  Forall (fun s => s <> []) segs ->
  0 < length (nonBlankLines lines) ->
  countLF (concat (fst (restore lines segs))) = countLF (concat segs).
Proof.
  intros Hne Hpos.
  destruct (decide (length segs <= length (nonBlankLines lines))) as [Hle|Hgt].
  - rewrite restore_no_extras by done. cbn [fst].
    by rewrite concat_aligned, take_ge.
  - destruct (restore_extras lines segs Hne) as (k & l & Hk & Hb & Hr & _ & ->);
      [lia|]. cbn [fst].
    destruct (lookup_lt_is_Some_2 segs (rank lines k)) as [seg Hseg]; [lia|].
    assert (Hak : imap (alignedAt segs lines) lines !! k = Some seg).
    { rewrite list_lookup_imap, Hk. cbn. unfold alignedAt. by rewrite Hb, Hseg. }
    pose proof (concat_aligned segs lines) as Hc.
    rewrite <- (take_drop_middle _ _ _ Hak) in Hc at 1.
    rewrite insert_take_drop by (by eapply lookup_lt_Some).
    apply (f_equal countLF) in Hc.
    rewrite concat_app in Hc. cbn [concat] in Hc. rewrite !countLF_app in Hc.
    rewrite concat_app. cbn [concat]. rewrite !countLF_app.
    rewrite (gluedFrom_lookup _ _ _ Hseg), countLF_fold_glue, Hr.
    assert (Hsplit : countLF (concat segs)
              = countLF (concat (take (length (nonBlankLines lines)) segs))
                + countLF (concat (drop (length (nonBlankLines lines)) segs)))
      by (by rewrite <- countLF_app, <- concat_app, take_drop).
    lia.
Qed.

Lemma length_restore (lines segs : list jsstring) :
  Forall (fun s => s <> []) segs ->
  0 < length (nonBlankLines lines) ->
  length (fst (restore lines segs)) = length lines.
Proof.
  intros Hne Hpos. rewrite restore_closed_form by done. apply length_imap.
Qed.

(** The number of lines of the text a pass computes. *)
Lemma lines_of_processedOutput (html text : jsstring) :
  forallb isBlank (inputLinesOf html) = false ->
  length (split (processedOutputOf html text))
    = length (inputLinesOf html) + countLF (concat (outputSegmentsOf text)).
Proof.
  intros Hb. apply not_all_blank in Hb.
  pose proof (outputSegments_nonEmpty text) as Hne.
  unfold processedOutputOf. rewrite length_split, countLF_postProcess.
  rewrite countLF_join.
  - by rewrite length_restore, countLF_restore.
  - intros H. apply (f_equal length) in H.
    rewrite length_restore in H by done.
    pose proof (filter_length_le (fun l => negb (isBlank l)) (inputLinesOf html)).
    unfold nonBlankLines in Hb. cbn in H. lia.
Qed.

(** ** Segments are made of characters of the text *)

Lemma elem_of_rev (c : N) (s : jsstring) : c ∈ rev s <-> c ∈ s.
Proof. rewrite !list_elem_of_In. symmetry. apply in_rev. Qed.

Lemma dropSpaces_elem (c : N) (s : jsstring) : c ∈ dropSpaces s -> c ∈ s.
Proof.
  induction s as [|d s IH]; [done|]. cbn [dropSpaces].
  destruct (Char.isWhiteSpace d); [|done].
  intros H. apply elem_of_cons. right. by apply IH.
Qed.

Lemma trim_elem (c : N) (s : jsstring) : c ∈ trim s -> c ∈ s.
Proof.
  unfold trim. rewrite elem_of_rev. intros H.
  apply dropSpaces_elem in H. rewrite elem_of_rev in H.
  by apply dropSpaces_elem.
Qed.

Lemma scanSentences_elem (st : ScanState) (s seg : jsstring) (c : N) :
  seg ∈ scanSentences st s -> c ∈ seg -> c ∈ pending st \/ c ∈ s.
Proof.
  revert st. induction s as [|d s IH]; intros st Hseg Hc.
  - destruct st as [|acc|acc]; cbn in Hseg.
    + by apply elem_of_nil in Hseg.
    + apply list_elem_of_singleton in Hseg. subst seg. left. by apply elem_of_rev.
    + apply list_elem_of_singleton in Hseg. subst seg. left. by apply elem_of_rev.
  - cbn [scanSentences] in Hseg.
    assert (Hstep : forall st', seg ∈ scanSentences st' s ->
              (forall x, x ∈ pending st' -> x = d \/ x ∈ pending st) ->
              c ∈ pending st \/ c ∈ d :: s).
    { intros st' H Hp. destruct (IH st' H Hc) as [H1|H1].
      - destruct (Hp c H1) as [->|H2]; [right; apply elem_of_cons; by left|by left].
      - right. apply elem_of_cons. by right. }
    destruct (Char.isTerminator d), st as [|acc|acc]; cbn [pending] in *.
    + apply (Hstep Idle Hseg). intros x Hx. by apply elem_of_nil in Hx.
    + apply (Hstep _ Hseg). cbn. intros x Hx.
      apply elem_of_cons in Hx. destruct Hx; [by left|by right].
    + apply (Hstep _ Hseg). cbn. intros x Hx.
      apply elem_of_cons in Hx. destruct Hx; [by left|by right].
    + apply (Hstep _ Hseg). cbn. intros x Hx.
      apply list_elem_of_singleton in Hx. by left.
    + apply (Hstep _ Hseg). cbn. intros x Hx.
      apply elem_of_cons in Hx. destruct Hx; [by left|by right].
    + apply elem_of_cons in Hseg. destruct Hseg as [->|Hseg].
      * left. by apply elem_of_rev.
      * apply (Hstep _ Hseg). cbn. intros x Hx.
        apply list_elem_of_singleton in Hx. by left.
Qed.

Lemma outputSegments_elem (text seg : jsstring) (c : N) :
  seg ∈ outputSegmentsOf text -> c ∈ seg -> c ∈ text.
Proof.
  unfold outputSegmentsOf. intros Hseg Hc.
  destruct (nonEmpty (trim text)); [|by apply elem_of_nil in Hseg].
  assert (Hms : forall ms,
            (forall m, m ∈ ms -> forall x, x ∈ m -> x ∈ trim text) ->
            seg ∈ match List.filter nonEmpty (map trim ms) with
                  | [] => [trim text]
                  | _ => List.filter nonEmpty (map trim ms)
                  end ->
            c ∈ text).
  { intros ms Hall H.
    destruct (List.filter nonEmpty (map trim ms)) eqn:Hf.
    - apply list_elem_of_singleton in H. subst seg. by apply trim_elem.
    - rewrite <- Hf in H. apply list_elem_of_In, filter_In in H.
      destruct H as [H _]. apply in_map_iff in H. destruct H as (m & <- & Hm).
      apply trim_elem, (Hall m); [by apply list_elem_of_In|]. by apply trim_elem. }
  unfold matchSentences in Hseg.
  destruct (scanSentences Idle (trim text)) as [|m0 ms0] eqn:Hscan.
  - apply (Hms [trim text]); [|done].
    intros m Hm. apply list_elem_of_singleton in Hm. by subst m.
  - apply (Hms (m0 :: ms0)); [|done].
    intros m Hm x Hx. rewrite <- Hscan in Hm.
    destruct (scanSentences_elem Idle _ _ _ Hm Hx) as [H|H]; [|done].
    by apply elem_of_nil in H.
Qed.

(** A text without newlines has segments without newlines. *)
Lemma outputSegments_no_LF (text : jsstring) :
  countLF text = 0 -> countLF (concat (outputSegmentsOf text)) = 0.
Proof.
  intros Ht. apply concat_no_LF, Forall_forall. intros seg Hseg.
  apply LF_notin. intros Hc. apply LF_notin in Ht. apply Ht.
  by apply (outputSegments_elem text seg).
Qed.

(** ** The line structure of the restored output *)

(** C1, as it holds.  For an input with a non-blank line,
    [restoredOutputArray] has one entry per input line: the empty string
    for a blank line, the next output segment in order for a non-blank
    line (the empty string once the segments have run out), and for the
    last non-blank line that segment with every segment left over appended
    to it.  The final text has one line per input line plus one more for
    every newline inside an output segment; it has exactly as many lines
    as the input when the output text holds no newline.  A pass that gets
    past the guards leaves that text in the output node. *)
Theorem restored_output_follows_input_lines (html text : jsstring) :
  forallb isBlank (inputLinesOf html) = false ->
  let lines := inputLinesOf html in
  let segs := outputSegmentsOf text in
  let restoredOutputArray := fst (restore lines segs) in
  length restoredOutputArray = length lines
  /\ (forall i line,
        lines !! i = Some line -> isBlank line = true ->
        restoredOutputArray !! i = Some [])
  /\ (forall i line,
        lines !! i = Some line -> isBlank line = false ->
        S (rank lines i) <> length (nonBlankLines lines) ->
        restoredOutputArray !! i
          = Some (match segs !! rank lines i with
                  | Some segment => segment
                  | None => []
                  end))
  /\ (forall i line,
        lines !! i = Some line -> isBlank line = false ->
        S (rank lines i) = length (nonBlankLines lines) ->
        restoredOutputArray !! i = Some (gluedFrom segs (rank lines i)))
  /\ length (split (processedOutputOf html text))
     = length lines + countLF (concat segs)
  /\ (countLF text = 0 ->
      length (split (processedOutputOf html text)) = length lines)
  /\ (forall p,
        inputHTML p = Some html -> outputText p = Some text ->
        unchanged p html text = false ->
        outputText (finalPage processTranslationLineBreaks p)
          = Some (processedOutputOf html text)).
Proof.
  intros Hb. cbv zeta.
  set (lines := inputLinesOf html) in *.
  set (segs := outputSegmentsOf text).
  pose proof (outputSegments_nonEmpty text) as Hne. fold segs in Hne.
  pose proof (proj1 (not_all_blank lines) Hb) as Hpos.
  pose proof (restore_closed_form lines segs Hne Hpos) as Hform.
  pose proof (lines_of_processedOutput html text Hb) as Hlines.
  fold lines segs in Hlines.
  assert (Hat : forall i line, lines !! i = Some line ->
            fst (restore lines segs) !! i = Some (restoredAt segs lines i line)).
  { intros i line Hl. by rewrite Hform, list_lookup_imap, Hl. }
  split; [by apply length_restore|].
  split.
  { intros i line Hl Hbl. rewrite (Hat i line Hl). unfold restoredAt.
    by rewrite Hbl. }
  split.
  { intros i line Hl Hbl Hlast. rewrite (Hat i line Hl). unfold restoredAt.
    rewrite Hbl. apply Nat.eqb_neq in Hlast. by rewrite Hlast. }
  split.
  { intros i line Hl Hbl Hlast. rewrite (Hat i line Hl). unfold restoredAt.
    rewrite Hbl. apply Nat.eqb_eq in Hlast. by rewrite Hlast. }
  split; [done|].
  split.
  { intros Ht. rewrite Hlines. unfold segs.
    rewrite (outputSegments_no_LF text Ht). lia. }
  intros p Hin Hout Hg.
  rewrite (run_processed p html text Hin Hout Hg). unfold resegment.
  fold lines. by rewrite Hb.
Qed.

Lemma restored_output_follows_input_lines_witness :
  let html := js "Hello.<br><br>How are you? Fine." in
  let text := js "Bonjour. Comment allez-vous? Bien. Merci." in
  fst (restore (inputLinesOf html) (outputSegmentsOf text))
    = [js "Bonjour."; []; js "Comment allez-vous? Bien. Merci."]
  /\ length (split (processedOutputOf html text)) = 3.
Proof.
  intros html text.
  destruct (restored_output_follows_input_lines html text)
    as (_ & _ & _ & _ & _ & Hn & _); [reflexivity|].
  split; [reflexivity|]. apply Hn. reflexivity.
Defined.

(** C1 as stated fails when an output segment spans lines.  Two input
    lines, and an output of two lines with no sentence terminator: the
    whole output is one segment, it goes to the first input line, the
    second gets the empty string, and the text written to the output node
    has three lines. *)
Lemma written_text_can_have_more_lines :
  let html := js "Hello<br>World" in
  let text := js "Bonjour" ++ Char.LF :: js "Monde" in
  let p := freshPage html text in
  forallb isBlank (inputLinesOf html) = false
  /\ length (inputLinesOf html) = 2
  /\ outputSegmentsOf text = [text]
  /\ fst (restore (inputLinesOf html) (outputSegmentsOf text)) = [text; []]
  /\ outputText (finalPage processTranslationLineBreaks p)
     = Some (js "Bonjour" ++ Char.LF :: js "Monde" ++ [Char.LF])
  /\ dispatches (effectsOf processTranslationLineBreaks p)
     = dispatches outputEvents
  /\ length (split (js "Bonjour" ++ Char.LF :: js "Monde" ++ [Char.LF])) = 3.
Proof. vm_compute. repeat split. Qed.

(** ** Whitespace and trimming *)

Lemma space_not_terminator (c : N) :
  Char.isWhiteSpace c = true -> Char.isTerminator c = false.
Proof.
  intros Hw. destruct (Char.isTerminator c) eqn:Ht; [|done].
  unfold Char.isTerminator in Ht.
  apply orb_true_iff in Ht. destruct Ht as [Ht|Ht];
    [apply orb_true_iff in Ht; destruct Ht as [Ht|Ht]|];
    apply N.eqb_eq in Ht; subst c; discriminate.
Qed.

Lemma dot_is_terminator : Char.isTerminator Char.DOT = true.
Proof. reflexivity. Qed.

Lemma allSpace_app (a b : jsstring) :
  allSpace (a ++ b) <-> allSpace a /\ allSpace b.
Proof. apply Forall_app. Qed.

Lemma dropSpaces_allSpace (ws s : jsstring) :
  allSpace ws -> dropSpaces (ws ++ s) = dropSpaces s.
Proof.
  induction 1 as [|c ws Hc _ IH]; [done|]. cbn. by rewrite Hc.
Qed.

Lemma dropSpaces_visible (s : jsstring) :
  startsWithSpace s = false -> dropSpaces s = s.
Proof. destruct s as [|c s]; [done|]. cbn. by intros ->. Qed.

Lemma dropSpaces_starts (s : jsstring) : startsWithSpace (dropSpaces s) = false.
Proof.
  induction s as [|c s IH]; [done|]. cbn.
  destruct (Char.isWhiteSpace c) eqn:Hc; [done|]. cbn. by rewrite Hc.
Qed.

Lemma dropSpaces_nil_allSpace (s : jsstring) :
  dropSpaces s = [] <-> allSpace s.
Proof.
  induction s as [|c s IH]; [split; [constructor|done]|].
  cbn. destruct (Char.isWhiteSpace c) eqn:Hc.
  - rewrite IH. split; [by constructor|]. by inversion 1.
  - split; [done|]. inversion 1; congruence.
Qed.

Lemma dropSpaces_app_visible (a b : jsstring) :
  dropSpaces a <> [] -> dropSpaces (a ++ b) = dropSpaces a ++ b.
Proof.
  induction a as [|c a IH]; [done|]. cbn.
  destruct (Char.isWhiteSpace c); [apply IH|done].
Qed.

Lemma endsWithSpace_rev (s : jsstring) :
  endsWithSpace s = startsWithSpace (rev s).
Proof. done. Qed.

Lemma endsWithSpace_app (a b : jsstring) :
  b <> [] -> endsWithSpace (a ++ b) = endsWithSpace b.
Proof.
  intros Hb. unfold endsWithSpace. rewrite rev_app_distr.
  destruct (rev b) eqn:Hr; [|done].
  apply (f_equal (@rev N)) in Hr. rewrite rev_involutive in Hr. done.
Qed.

Lemma allSpace_rev (s : jsstring) : allSpace s -> allSpace (rev s).
Proof.
  unfold allSpace. rewrite !Forall_forall. intros H c Hc.
  apply H. by apply elem_of_rev.
Qed.

Lemma rtrim_visible (s : jsstring) : endsWithSpace s = false -> rtrim s = s.
Proof.
  intros H. unfold rtrim. rewrite dropSpaces_visible; [apply rev_involutive|].
  by rewrite <- endsWithSpace_rev.
Qed.

Lemma rtrim_allSpace (ws : jsstring) : allSpace ws -> rtrim ws = [].
Proof.
  intros H. unfold rtrim.
  by rewrite (proj2 (dropSpaces_nil_allSpace (rev ws)) (allSpace_rev _ H)).
Qed.

Lemma rtrim_app (a b : jsstring) :
  endsWithSpace a = false -> rtrim (a ++ b) = a ++ rtrim b.
Proof.
  intros Ha. unfold rtrim. rewrite rev_app_distr.
  destruct (dropSpaces (rev b)) as [|c r] eqn:Hb.
  - apply dropSpaces_nil_allSpace in Hb. rewrite dropSpaces_allSpace by done.
    rewrite dropSpaces_visible by (by rewrite <- endsWithSpace_rev).
    cbn. by rewrite rev_involutive, app_nil_r.
  - rewrite dropSpaces_app_visible by (by rewrite Hb).
    by rewrite Hb, rev_app_distr, rev_involutive.
Qed.

Lemma rtrim_ends (s : jsstring) : endsWithSpace (rtrim s) = false.
Proof.
  unfold rtrim. rewrite endsWithSpace_rev, rev_involutive.
  apply dropSpaces_starts.
Qed.

Lemma trim_rtrim (s : jsstring) : trim s = rtrim (dropSpaces s).
Proof. done. Qed.

Lemma trim_allSpace (ws : jsstring) : allSpace ws -> trim ws = [].
Proof.
  intros H. rewrite trim_rtrim.
  by rewrite (proj2 (dropSpaces_nil_allSpace ws) H).
Qed.

(** A string with visible characters at both ends is its own trim, also
    behind leading whitespace. *)
Lemma trim_padded (ws s : jsstring) :
  allSpace ws -> startsWithSpace s = false -> endsWithSpace s = false ->
  trim (ws ++ s) = s.
Proof.
  intros Hws Hs He. rewrite trim_rtrim, dropSpaces_allSpace by done.
  rewrite dropSpaces_visible by done. by apply rtrim_visible.
Qed.

(** ** Texts woven from segments *)

Lemma properSentence_nonEmpty (s : jsstring) : ProperSentence s -> s <> [].
Proof.
  intros (b & t & -> & Hb & _). by destruct b.
Qed.

Lemma properSentence_starts (s : jsstring) :
  ProperSentence s -> startsWithSpace s = false.
Proof. by intros (b & t & _ & _ & _ & _ & H & _). Qed.

Lemma properSentence_ends (s : jsstring) :
  ProperSentence s -> endsWithSpace s = false.
Proof. by intros (b & t & _ & _ & _ & _ & _ & H). Qed.

Lemma weave_pad (ws s : jsstring) (segs : list jsstring) :
  allSpace ws -> Weave segs s -> Weave segs (ws ++ s).
Proof.
  intros Hws [ws' Hws'|ws' seg rest segs' Hws' Hseg Hrest].
  - constructor. by apply allSpace_app.
  - rewrite app_assoc. constructor; [by apply allSpace_app|done..].
Qed.

Lemma weave_app (a b : list jsstring) (x y : jsstring) :
  Weave a x -> Weave b y -> Weave (a ++ b) (x ++ y).
Proof.
  intros Ha Hb. induction Ha as [ws Hws|ws seg rest segs Hws Hseg _ IH].
  - by apply weave_pad.
  - rewrite <- !app_assoc. cbn [app]. by constructor.
Qed.

Lemma weave_one (seg : jsstring) : ProperSentence seg -> Weave [seg] seg.
Proof.
  intros H. rewrite <- (app_nil_r seg) at 2.
  apply (weave_cons [] seg [] []); [constructor|done|by repeat constructor].
Qed.

Lemma weave_unpad (ws s : jsstring) (segs : list jsstring) :
  allSpace ws -> Weave segs (ws ++ s) -> Weave segs s.
Proof.
  induction 1 as [|c ws Hc _ IH]; [done|]. intros H. apply IH. clear IH.
  cbn [app] in H. remember (c :: ws ++ s) as r eqn:Hr.
  destruct H as [ws' Hws'|ws' seg rest segs' Hws' Hseg Hrest].
  - subst ws'. constructor. by inversion Hws'.
  - destruct ws' as [|c' ws'].
    + pose proof (properSentence_starts _ Hseg) as Hs.
      destruct seg as [|d seg]; [by apply properSentence_nonEmpty in Hseg|].
      cbn in Hr. injection Hr as -> _. cbn in Hs. congruence.
    + cbn in Hr. injection Hr as -> <-. constructor; [by inversion Hws'|done..].
Qed.

Lemma weave_allSpace (s : jsstring) : Weave [] s -> allSpace s.
Proof. by inversion 1. Qed.

Lemma weave_dropSpaces (segs : list jsstring) (s : jsstring) :
  Weave segs s -> Weave segs (dropSpaces s).
Proof.
  intros [ws Hws|ws seg rest segs' Hws Hseg Hrest].
  - rewrite (proj2 (dropSpaces_nil_allSpace ws) Hws). by repeat constructor.
  - rewrite dropSpaces_allSpace by done.
    rewrite dropSpaces_visible.
    + by apply (weave_cons [] seg rest segs'); [constructor|..].
    + pose proof (properSentence_starts _ Hseg).
      destruct seg; [by apply properSentence_nonEmpty in Hseg|done].
Qed.

Lemma weave_rtrim (segs : list jsstring) (s : jsstring) :
  Weave segs s -> Weave segs (rtrim s).
Proof.
  induction 1 as [ws Hws|ws seg rest segs Hws Hseg _ IH].
  - rewrite rtrim_allSpace by done. by repeat constructor.
  - rewrite app_assoc, rtrim_app, <- app_assoc; [by constructor|].
    rewrite endsWithSpace_app; [by apply properSentence_ends|].
    by apply properSentence_nonEmpty.
Qed.

Lemma weave_trim (segs : list jsstring) (s : jsstring) :
  Weave segs s -> Weave segs (trim s).
Proof.
  intros H. rewrite trim_rtrim. by apply weave_rtrim, weave_dropSpaces.
Qed.

(** ** Scanning a woven text gives the segments back *)

Lemma scan_body_run (acc run rest : jsstring) :
  Forall (fun c => Char.isTerminator c = false) run ->
  scanSentences (InBody acc) (run ++ rest)
    = scanSentences (InBody (rev run ++ acc)) rest.
Proof.
  intros H. revert acc. induction H as [|c run Hc _ IH]; intros acc; [done|].
  cbn [app scanSentences rev]. rewrite Hc, IH. by rewrite <- app_assoc.
Qed.

Lemma scan_term_run (acc run rest : jsstring) :
  Forall (fun c => Char.isTerminator c = true) run ->
  scanSentences (InTerm acc) (run ++ rest)
    = scanSentences (InTerm (rev run ++ acc)) rest.
Proof.
  intros H. revert acc. induction H as [|c run Hc _ IH]; intros acc; [done|].
  cbn [app scanSentences rev]. rewrite Hc, IH. by rewrite <- app_assoc.
Qed.

Lemma scan_enter_idle (run rest : jsstring) :
  Forall (fun c => Char.isTerminator c = false) run ->
  run <> [] ->
  scanSentences Idle (run ++ rest) = scanSentences (InBody (rev run)) rest.
Proof.
  intros H Hne. destruct H as [|c run Hc H]; [done|].
  cbn [app scanSentences rev]. rewrite Hc, (scan_body_run _ _ _ H). done.
Qed.

Lemma scan_enter_term (acc run rest : jsstring) :
  Forall (fun c => Char.isTerminator c = false) run ->
  run <> [] ->
  scanSentences (InTerm acc) (run ++ rest)
    = rev acc :: scanSentences (InBody (rev run)) rest.
Proof.
  intros H Hne. destruct H as [|c run Hc H]; [done|].
  cbn [app scanSentences rev]. rewrite Hc, (scan_body_run _ _ _ H). done.
Qed.

Lemma allSpace_not_terminator (ws : jsstring) :
  allSpace ws -> Forall (fun c => Char.isTerminator c = false) ws.
Proof.
  intros H. eapply Forall_impl; [exact H|]. apply space_not_terminator.
Qed.

Lemma segsOf_cons (m : jsstring) (ms : list jsstring) :
  segsOf (m :: ms) = segsOf [m] ++ segsOf ms.
Proof. unfold segsOf. cbn. by destruct (nonEmpty (trim m)). Qed.

Lemma segsOf_space (ws : jsstring) : allSpace ws -> segsOf [ws] = [].
Proof. intros H. unfold segsOf. cbn. by rewrite trim_allSpace. Qed.

Lemma segsOf_visible (ws s : jsstring) :
  allSpace ws -> ProperSentence s -> segsOf [ws ++ s] = [s].
Proof.
  intros Hws Hs. unfold segsOf. cbn [map List.filter].
  rewrite trim_padded;
    [|done|by apply properSentence_starts|by apply properSentence_ends].
  apply properSentence_nonEmpty, nonEmpty_true in Hs. by rewrite Hs.
Qed.

Lemma body_not_terminated (b : jsstring) :
  Forall (fun c => Char.isTerminator c = false) b ->
  endsWithTerminator b = false.
Proof.
  intros H. unfold endsWithTerminator. destruct (rev b) as [|c r] eqn:Hr; [done|].
  rewrite Forall_forall in H. apply H, elem_of_rev. rewrite Hr. by left.
Qed.

Lemma allButLast_tail {A} (P : A -> Prop) (x : A) (l : list A) :
  AllButLast P (x :: l) -> AllButLast P l.
Proof. inversion 1; subst; [constructor|done]. Qed.

(** Scanning all-space text that follows a terminator run, or nothing. *)
Lemma scan_space (ws : jsstring) :
  allSpace ws ->
  segsOf (scanSentences Idle ws) = []
  /\ forall acc, segsOf (scanSentences (InTerm acc) ws) = segsOf [rev acc].
Proof.
  intros Hws. pose proof (allSpace_not_terminator _ Hws) as Hnt.
  destruct (decide (ws = [])) as [->|Hne]; [done|].
  split.
  - rewrite <- (app_nil_r ws), scan_enter_idle by done. cbn [scanSentences].
    rewrite rev_involutive. by apply segsOf_space.
  - intros acc. rewrite <- (app_nil_r ws), scan_enter_term by done.
    cbn [scanSentences]. rewrite rev_involutive, segsOf_cons.
    by rewrite (segsOf_space ws), app_nil_r.
Qed.

Lemma scan_woven (segs : list jsstring) (s : jsstring) :
  Weave segs s ->
  AllButLast (fun seg => endsWithTerminator seg = true) segs ->
  segsOf (scanSentences Idle s) = segs
  /\ forall acc,
       segsOf (scanSentences (InTerm acc) s) = segsOf [rev acc] ++ segs.
Proof.
  induction 1 as [ws Hws|ws seg rest segs Hws Hseg Hrest IH]; intros Hchain.
  { destruct (scan_space ws Hws) as [H1 H2]. split; [done|].
    intros acc. by rewrite H2, app_nil_r. }
  pose proof Hseg as (b & t & -> & Hb & Hnt & Ht & Hstart & Hend).
  set (run := ws ++ b).
  assert (Hrun : Forall (fun c => Char.isTerminator c = false) run).
  { apply Forall_app. split; [by apply allSpace_not_terminator|done]. }
  assert (Hrun_ne : run <> []) by (unfold run; by destruct ws, b).
  assert (Heq : ws ++ (b ++ t) ++ rest = run ++ (t ++ rest)).
  { unfold run. by rewrite <- !app_assoc. }
  assert (K : segsOf (scanSentences (InBody (rev run)) (t ++ rest))
              = (b ++ t) :: segs).
  { destruct t as [|d t].
    - (* no terminator: the sentence runs to the end of the text *)
      assert (segs = []) as ->.
      { inversion Hchain as [| |x y l Hx _]; subst; [done|].
        rewrite app_nil_r, body_not_terminated in Hx; done. }
      apply weave_allSpace in Hrest.
      cbn [app]. rewrite <- (app_nil_r rest).
      rewrite scan_body_run by (by apply allSpace_not_terminator).
      cbn [scanSentences]. rewrite rev_app_distr, !rev_involutive.
      unfold run. rewrite <- app_assoc.
      unfold segsOf. cbn [map List.filter].
      rewrite trim_rtrim, dropSpaces_allSpace by done.
      rewrite app_nil_r in *.
      rewrite dropSpaces_visible.
      2:{ destruct b; [done|]. exact Hstart. }
      rewrite rtrim_app, rtrim_allSpace, app_nil_r by done.
      apply nonEmpty_true in Hb. by rewrite Hb.
    - inversion Ht as [|? ? Hd Ht']; subst.
      cbn [app scanSentences]. rewrite Hd, scan_term_run by done.
      destruct (IH (allButLast_tail _ _ _ Hchain)) as [_ IH2].
      rewrite IH2. f_equal.
      replace (rev (rev t ++ d :: rev run)) with (ws ++ b ++ d :: t).
      + by rewrite segsOf_visible.
      + rewrite rev_app_distr, rev_involutive. cbn [rev].
        rewrite rev_involutive. unfold run. by rewrite <- !app_assoc. }
  rewrite Heq. split.
  - by rewrite scan_enter_idle.
  - intros acc. rewrite scan_enter_term by done. by rewrite segsOf_cons, K.
Qed.

Lemma allSpace_trim_nil (s : jsstring) : allSpace s -> nonEmpty (trim s) = false.
Proof. intros H. rewrite trim_allSpace by done. done. Qed.

(** The segments of a woven text are the segments it is woven from. *)
Lemma outputSegments_woven (segs : list jsstring) (s : jsstring) :
  Weave segs s ->
  AllButLast (fun seg => endsWithTerminator seg = true) segs ->
  outputSegmentsOf s = segs.
Proof.
  intros Hw Hchain. unfold outputSegmentsOf.
  destruct segs as [|seg segs].
  { apply weave_allSpace in Hw. by rewrite allSpace_trim_nil. }
  pose proof (weave_trim _ _ Hw) as Hwt.
  destruct (scan_woven _ _ Hwt Hchain) as [Hscan _].
  assert (Hne : nonEmpty (trim s) = true).
  { apply nonEmpty_true. inversion Hwt as [|ws ? rest ? _ Hseg _]; subst.
    apply properSentence_nonEmpty in Hseg. by destruct ws, seg. }
  rewrite Hne. unfold matchSentences.
  destruct (scanSentences Idle (trim s)) as [|m ms] eqn:Hms; [done|].
  fold (segsOf (m :: ms)). by rewrite Hscan.
Qed.

(** ** The e-mail post-processing only takes whitespace after dots out *)

Lemma squeeze_refl (s : jsstring) : Squeeze s s.
Proof. induction s; by constructor. Qed.

Lemma squeeze_app (a a' b b' : jsstring) :
  Squeeze a a' -> Squeeze b b' -> Squeeze (a ++ b) (a' ++ b').
Proof.
  intros Ha Hb. induction Ha as [|c s s' _ IH|ws s s' Hws _ IH]; [done| |].
  - cbn. by constructor.
  - cbn. rewrite <- app_assoc. by constructor.
Qed.

Lemma squeeze_replaceDotSpaceFrom (s : jsstring) :
  Squeeze s (replaceDotSpaceFrom false s)
  /\ Squeeze (Char.DOT :: s) (Char.DOT :: replaceDotSpaceFrom true s).
Proof.
  induction s as [|c s [IH1 IH2]]; [split; repeat constructor|].
  assert (Hkeep : Squeeze (c :: s)
            (c :: replaceDotSpaceFrom (N.eqb c Char.DOT) s)).
  { destruct (N.eqb_spec c Char.DOT) as [->|_]; [done|by constructor]. }
  split; [done|]. cbn [replaceDotSpaceFrom andb].
  destruct (Char.isWhiteSpace c) eqn:Hc; [|by constructor].
  inversion IH2 as [|? ? ? Hs|ws s0 ? Hws Hs0]; subst.
  - apply (squeeze_drop [c] s); [by repeat constructor|done].
  - apply (squeeze_drop (c :: ws) s0); [by constructor|done].
Qed.

Lemma squeeze_fixEmailLine (l : jsstring) : Squeeze l (fixEmailLine l).
Proof.
  unfold fixEmailLine, replaceDotSpace. destruct (includes _ _).
  - apply squeeze_replaceDotSpaceFrom.
  - apply squeeze_refl.
Qed.

Lemma join_cons (l : jsstring) (ls : list jsstring) :
  ls <> [] -> join (l :: ls) = l ++ Char.LF :: join ls.
Proof. by destruct ls. Qed.

Lemma join_split (s : jsstring) : join (split s) = s.
Proof.
  induction s as [|c s IH]; [done|]. cbn [split].
  assert (Hne : split s <> []).
  { intros H. apply (f_equal length) in H. by rewrite length_split in H. }
  destruct (N.eqb_spec c Char.LF) as [->|_].
  - by rewrite join_cons, IH.
  - destruct (split s) as [|l ls]; [done|].
    destruct ls as [|l' ls]; cbn in *; by rewrite <- IH.
Qed.

Lemma squeeze_join_map (f : jsstring -> jsstring) (ls : list jsstring) :
  (forall l, Squeeze l (f l)) ->
  Squeeze (join ls) (join (map f ls)).
Proof.
  intros Hf. induction ls as [|l ls IH]; [constructor|].
  destruct ls as [|l' ls]; [apply Hf|].
  change (map f (l :: l' :: ls)) with (f l :: map f (l' :: ls)).
  rewrite !join_cons by done.
  apply squeeze_app; [apply Hf|]. by constructor.
Qed.

Lemma squeeze_postProcess (s : jsstring) : Squeeze s (postProcess s).
Proof.
  unfold postProcess. rewrite <- (join_split s) at 1.
  apply squeeze_join_map, squeeze_fixEmailLine.
Qed.

Lemma whitespace_not_dot (c : N) : Char.isWhiteSpace c = true -> c <> Char.DOT.
Proof. by intros H ->. Qed.

Lemma squeeze_space (ws r s' : jsstring) :
  allSpace ws -> Squeeze (ws ++ r) s' ->
  exists r', s' = ws ++ r' /\ Squeeze r r'.
Proof.
  intros Hws. revert s'. induction Hws as [|c ws Hc _ IH]; intros s' H.
  - by exists s'.
  - cbn [app] in H. inversion H as [|? ? s1 Hs|? ? ? _ _]; subst.
    + destruct (IH _ Hs) as (r' & -> & Hr). by exists r'.
    + by apply whitespace_not_dot in Hc.
Qed.

Lemma squeeze_body (b r s' : jsstring) :
  Forall (fun c => Char.isTerminator c = false) b ->
  Squeeze (b ++ r) s' ->
  exists r', s' = b ++ r' /\ Squeeze r r'.
Proof.
  intros Hb. revert s'. induction Hb as [|c b Hc _ IH]; intros s' H.
  - by exists s'.
  - cbn [app] in H. inversion H as [|? ? s1 Hs|? ? ? _ _]; subst.
    + destruct (IH _ Hs) as (r' & -> & Hr). by exists r'.
    + by rewrite dot_is_terminator in Hc.
Qed.

(** Past a run of terminators the squeeze may have taken the whitespace
    that follows it. *)
Lemma squeeze_term (t r s' : jsstring) :
  Forall (fun c => Char.isTerminator c = true) t ->
  Squeeze (t ++ r) s' ->
  exists ws r0 r',
    s' = t ++ r' /\ r = ws ++ r0 /\ allSpace ws /\ Squeeze r0 r'.
Proof.
  intros Ht. revert s'. induction Ht as [|c t Hc Ht IH]; intros s' H.
  - exists [], r, s'. by repeat split; [constructor|].
  - cbn [app] in H. inversion H as [|? ? s1 Hs|ws s0 s1 Hws Hs0 [Hc' Heq]]; subst.
    + destruct (IH _ Hs) as (ws & r0 & r' & -> & -> & Hws & Hr).
      by exists ws, r0, r'.
    + destruct t as [|d t].
      * cbn in Heq. subst r. exists ws, s0, s1. by repeat split.
      * inversion Ht as [|? ? Hd _]; subst.
        destruct ws as [|w ws].
        -- cbn in Heq. subst s0.
           destruct (IH _ Hs0) as (ws & r0 & r' & -> & -> & Hws' & Hr).
           by exists ws, r0, r'.
        -- cbn in Heq. injection Heq as -> _. inversion Hws as [|? ? Hw _]; subst.
           apply space_not_terminator in Hw. congruence.
Qed.

Lemma squeeze_sentence (seg r s' : jsstring) :
  ProperSentence seg ->
  Squeeze (seg ++ r) s' ->
  exists ws r0 r',
    s' = seg ++ r' /\ r = ws ++ r0 /\ allSpace ws /\ Squeeze r0 r'.
Proof.
  intros (b & t & -> & _ & Hb & Ht & _) H.
  rewrite <- app_assoc in H.
  destruct (squeeze_body _ _ _ Hb H) as (r1 & -> & H1).
  destruct (squeeze_term _ _ _ Ht H1) as (ws & r0 & r' & -> & -> & Hws & Hr).
  exists ws, r0, r'. by rewrite <- app_assoc.
Qed.

(** A woven text stays woven from the same segments when squeezed. *)
Lemma weave_squeeze (segs : list jsstring) (s s' : jsstring) :
  Weave segs s -> Squeeze s s' -> Weave segs s'.
Proof.
  revert s s'. induction segs as [|seg segs IH]; intros s s' Hw Hs.
  - apply weave_allSpace in Hw.
    rewrite <- (app_nil_r s) in Hs.
    destruct (squeeze_space _ _ _ Hw Hs) as (r' & -> & Hr).
    inversion Hr; subst. rewrite app_nil_r. by constructor.
  - inversion Hw as [|ws ? rest ? Hws Hseg Hrest]; subst.
    destruct (squeeze_space _ _ _ Hws Hs) as (r1 & -> & H1).
    destruct (squeeze_sentence _ _ _ Hseg H1)
      as (ws' & r0 & r' & -> & -> & Hws' & Hr).
    constructor; [done..|].
    apply (IH r0); [|done]. by apply (weave_unpad ws').
Qed.

(** ** The restored text is woven from the segments *)

Lemma join_snoc (arr : list jsstring) (x : jsstring) :
  arr <> [] -> join (arr ++ [x]) = join arr ++ Char.LF :: x.
Proof.
  induction arr as [|l arr IH]; [done|]. intros _.
  destruct arr as [|l' arr]; [done|].
  change ((l :: l' :: arr) ++ [x]) with (l :: ((l' :: arr) ++ [x])).
  rewrite !join_cons by (done || by destruct arr).
  rewrite IH by done. by rewrite <- app_assoc.
Qed.

Lemma join_last_app (arr : list jsstring) (x y : jsstring) :
  join (arr ++ [x ++ y]) = join (arr ++ [x]) ++ y.
Proof.
  destruct (decide (arr = [])) as [->|Hne]; [done|].
  rewrite !join_snoc by done. by rewrite <- !app_assoc.
Qed.

Lemma join_blanks (arr : list jsstring) (b : nat) :
  arr <> [] ->
  join (arr ++ replicate b []) = join arr ++ replicate b Char.LF.
Proof.
  intros Hne. induction b as [|b IH]; [by rewrite !app_nil_r|].
  rewrite !replicate_S_end, app_assoc, join_snoc by (by destruct arr).
  by rewrite IH, <- app_assoc.
Qed.

Lemma allSpace_LF (b : nat) : allSpace (replicate b Char.LF).
Proof. by apply Forall_replicate. Qed.

(** What the [for] loop pushed is woven from the segments it used. *)
Lemma weave_aligned (segs lines : list jsstring) :
  Forall ProperSentence segs ->
  Weave (take (length (nonBlankLines lines)) segs)
        (join (imap (alignedAt segs lines) lines)).
Proof.
  intros Hsegs. induction lines as [|l lines IH] using rev_ind.
  { cbn. rewrite take_0. by repeat constructor. }
  rewrite imap_app, alignedAt_snoc. cbn [imap].
  rewrite Nat.add_0_r, alignedAt_last, nonBlankLines_snoc, length_app.
  set (arr := imap (alignedAt segs lines) lines) in *.
  assert (Hblank : Weave (take (length (nonBlankLines lines)) segs)
                         (join (arr ++ [[]]))).
  { destruct (decide (arr = [])) as [->|Hne]; [done|].
    rewrite join_snoc by done. rewrite <- (app_nil_r (take _ segs)).
    apply weave_app; [done|]. by repeat constructor. }
  destruct (isBlank l); cbn [length].
  - by rewrite Nat.add_0_r.
  - rewrite Nat.add_1_r.
    destruct (segs !! length (nonBlankLines lines)) as [seg|] eqn:Hseg.
    + rewrite (take_S_r _ _ _ Hseg).
      assert (Hp : ProperSentence seg).
      { rewrite Forall_forall in Hsegs. apply Hsegs.
        by eapply list_elem_of_lookup_2. }
      destruct (decide (arr = [])) as [Ha|Hne].
      * rewrite Ha in IH |- *. cbn in IH |- *.
        rewrite <- (app_nil_l seg). apply weave_app; [done|by apply weave_one].
      * rewrite join_snoc by done. apply weave_app; [done|].
        apply (weave_pad [Char.LF]); [by repeat constructor|by apply weave_one].
    + apply lookup_ge_None in Hseg. rewrite take_ge by lia.
      rewrite take_ge in Hblank by lia. done.
Qed.

Lemma glue_spaced (line seg : jsstring) :
  line <> [] -> endsWithSpace line = false -> ProperSentence seg ->
  glue line seg = line ++ Char.SPACE :: seg.
Proof.
  intros Hl He Hs. unfold glue.
  apply nonEmpty_true in Hl. rewrite Hl, He.
  rewrite (properSentence_starts _ Hs).
  apply properSentence_nonEmpty, nonEmpty_true in Hs. rewrite Hs. cbn.
  by rewrite <- app_assoc.
Qed.

Lemma fold_glue_spaced (extras : list jsstring) (line : jsstring) :
  line <> [] -> endsWithSpace line = false -> Forall ProperSentence extras ->
  fold_left glue extras line
    = line ++ concat (map (cons Char.SPACE) extras).
Proof.
  intros Hl He Hex. revert line Hl He.
  induction Hex as [|seg extras Hseg _ IH]; intros line Hl He.
  - cbn. by rewrite app_nil_r.
  - cbn [fold_left map concat]. rewrite glue_spaced by done.
    rewrite IH.
    + by rewrite <- app_assoc.
    + by destruct line.
    + change (Char.SPACE :: seg) with ([Char.SPACE] ++ seg).
      rewrite app_assoc, endsWithSpace_app.
      * by apply properSentence_ends.
      * by apply properSentence_nonEmpty.
Qed.

Lemma weave_spaced (extras : list jsstring) :
  Forall ProperSentence extras ->
  Weave extras (concat (map (cons Char.SPACE) extras)).
Proof.
  induction 1 as [|seg extras Hseg _ IH]; [by repeat constructor|].
  cbn [map concat].
  apply (weave_cons [Char.SPACE] seg _ extras); [by repeat constructor|done..].
Qed.

Lemma blanks_after (arr : list jsstring) (k : nat) :
  (forall j y, k < j -> arr !! j = Some y -> y = []) ->
  drop (S k) arr = replicate (length arr - S k) [].
Proof.
  intros H. symmetry. apply replicate_as_Forall. split; [by rewrite length_drop|].
  apply Forall_forall. intros y Hy.
  apply list_elem_of_lookup in Hy as [i Hi]. rewrite lookup_drop in Hi.
  symmetry. apply (H (S k + i)); [lia|done].
Qed.

(** Lines 205-249: the restored text is the segments, in order, held
    apart by newlines and single spaces. *)
Lemma weave_restore (lines segs : list jsstring) :
  Forall ProperSentence segs ->
  0 < length (nonBlankLines lines) ->
  Weave segs (join (fst (restore lines segs))).
Proof.
  intros Hsegs Hpos.
  assert (Hne : Forall (fun s => s <> []) segs).
  { eapply Forall_impl; [exact Hsegs|]. apply properSentence_nonEmpty. }
  pose proof (weave_aligned segs lines Hsegs) as Hal.
  destruct (decide (length segs <= length (nonBlankLines lines))) as [Hle|Hgt].
  { rewrite restore_no_extras by done. cbn [fst]. by rewrite take_ge in Hal. }
  destruct (restore_extras lines segs Hne) as (k & l & Hk & Hb & Hr & Hlater & ->);
    [lia|]. cbn [fst].
  set (arr := imap (alignedAt segs lines) lines) in *.
  destruct (lookup_lt_is_Some_2 segs (rank lines k)) as [seg Hseg]; [lia|].
  assert (Hak : arr !! k = Some seg).
  { unfold arr. rewrite list_lookup_imap, Hk. cbn.
    unfold alignedAt. by rewrite Hb, Hseg. }
  assert (Hp : ProperSentence seg).
  { rewrite Forall_forall in Hsegs. apply Hsegs. by eapply list_elem_of_lookup_2. }
  assert (Hblanks : drop (S k) arr = replicate (length arr - S k) []).
  { apply blanks_after. intros j y Hj. unfold arr. rewrite list_lookup_imap.
    destruct (lines !! j) as [lj|] eqn:Hlj; cbn; [|done].
    intros [= <-]. unfold alignedAt. by rewrite (Hlater j lj Hj Hlj). }
  set (pre := take k arr) in *. set (b := length arr - S k) in *.
  assert (Hends : endsWithSpace (join (pre ++ [seg])) = false).
  { destruct (decide (pre = [])) as [->|Hpre].
    - cbn. by apply properSentence_ends.
    - rewrite join_snoc by done.
      change (Char.LF :: seg) with ([Char.LF] ++ seg).
      rewrite app_assoc, endsWithSpace_app.
      + by apply properSentence_ends.
      + by apply properSentence_nonEmpty. }
  (* the text before the [while] loop, without its trailing blank lines *)
  assert (H1 : Weave (take (length (nonBlankLines lines)) segs)
                     (join (pre ++ [seg]))).
  { rewrite <- (take_drop_middle _ _ _ Hak), Hblanks in Hal. fold pre in Hal.
    change (pre ++ seg :: replicate b []) with (pre ++ [seg] ++ replicate b []) in Hal.
    rewrite app_assoc, join_blanks in Hal by (by destruct pre).
    apply weave_rtrim in Hal.
    by rewrite rtrim_app, (rtrim_allSpace _ (allSpace_LF b)), app_nil_r in Hal. }
  rewrite insert_take_drop by (by eapply lookup_lt_Some).
  fold pre. rewrite Hblanks. fold b.
  rewrite (gluedFrom_lookup _ _ _ Hseg), Hr.
  assert (Hextras : Forall ProperSentence (drop (length (nonBlankLines lines)) segs))
    by (by apply Forall_drop).
  rewrite fold_glue_spaced;
    [|by apply properSentence_nonEmpty|by apply properSentence_ends|done].
  match goal with |- Weave _ (join (pre ++ ?g :: ?bl)) =>
    change (pre ++ g :: bl) with (pre ++ [g] ++ bl) end.
  rewrite app_assoc, join_blanks by (by destruct pre).
  rewrite join_last_app.
  rewrite <- (take_drop (length (nonBlankLines lines)) segs) at 1.
  rewrite <- app_assoc. apply weave_app; [done|].
  pose proof (weave_app _ _ _ _ (weave_spaced _ Hextras)
                (weave_nil _ (allSpace_LF b))) as H2.
  by rewrite app_nil_r in H2.
Qed.

(** ** The shape of the segments of any text *)

Lemma allButLast_cons {A} (P : A -> Prop) (x : A) (l : list A) :
  P x -> AllButLast P l -> AllButLast P (x :: l).
Proof. intros Hx Hl. destruct l; by constructor. Qed.

Lemma allButLast_impl {A} (P Q : A -> Prop) (l : list A) :
  (forall x, P x -> Q x) -> AllButLast P l -> AllButLast Q l.
Proof. intros H. induction 1; constructor; auto. Qed.

Lemma allButLast_map {A B} (P : B -> Prop) (f : A -> B) (l : list A) :
  AllButLast (fun x => P (f x)) l -> AllButLast P (map f l).
Proof. induction 1; cbn; by constructor. Qed.

Lemma allButLast_filter {A} (P : A -> Prop) (f : A -> bool) (l : list A) :
  AllButLast P l -> AllButLast P (List.filter f l).
Proof.
  induction 1 as [|x|x y l Hx _ IH].
  - constructor.
  - cbn. destruct (f x); constructor.
  - change (List.filter f (x :: y :: l))
      with (if f x then x :: List.filter f (y :: l) else List.filter f (y :: l)).
    destruct (f x); [by apply allButLast_cons|done].
Qed.

Lemma endsWithTerminator_snoc (s : jsstring) (c : N) :
  endsWithTerminator (s ++ [c]) = Char.isTerminator c.
Proof. unfold endsWithTerminator. by rewrite rev_app_distr. Qed.

Lemma scan_shape (s : jsstring) (st : ScanState) :
  stateOK st ->
  Forall SentenceShape (scanSentences st s)
  /\ AllButLast (fun m => endsWithTerminator m = true) (scanSentences st s).
Proof.
  revert st. induction s as [|c s IH]; intros st Hst.
  - destruct st as [|acc|acc]; cbn in *.
    + split; constructor.
    + split; [|constructor]. constructor; [|constructor].
      exists (rev acc), []. rewrite app_nil_r.
      split; [done|]. split; [|constructor].
      apply Forall_forall. intros x Hx. rewrite Forall_forall in Hst.
      by apply Hst, elem_of_rev.
    + split; [|constructor]. constructor; [tauto|constructor].
  - cbn [scanSentences]. destruct (Char.isTerminator c) eqn:Hc.
    + assert (Hnext : forall acc, stateOK st -> pending st = acc ->
                st <> Idle -> stateOK (InTerm (c :: acc))).
      { intros acc Hok <- Hidle. cbn [stateOK rev].
        rewrite endsWithTerminator_snoc. split; [|done].
        destruct st as [|a|a]; [done| |]; cbn in *.
        - exists (rev a), [c]. split; [done|]. split; [|by repeat constructor].
          apply Forall_forall. intros x Hx. rewrite Forall_forall in Hok.
          by apply Hok, elem_of_rev.
        - destruct Hok as [(b & t & Heq & Hb & Ht) _].
          exists b, (t ++ [c]). rewrite Heq, <- app_assoc.
          split; [done|]. split; [done|].
          apply Forall_app. by repeat constructor. }
      destruct st as [|acc|acc].
      * by apply IH.
      * by apply IH, (Hnext acc Hst).
      * by apply IH, (Hnext acc Hst).
    + destruct st as [|acc|acc]; cbn in Hst.
      * apply IH. cbn. by repeat constructor.
      * apply IH. cbn. by constructor.
      * destruct (IH (InBody [c])) as [H1 H2]; [cbn; by repeat constructor|].
        destruct Hst as [Hshape Hend].
        split; [by constructor|by apply allButLast_cons].
Qed.

Lemma sentenceShape_suffix (x s : jsstring) :
  SentenceShape (x ++ s) -> SentenceShape s.
Proof.
  induction x as [|c x IH]; [done|]. intros (b & t & Heq & Hb & Ht).
  apply IH. destruct b as [|d b].
  - cbn in Heq. subst t. inversion Ht; subst.
    exists [], (x ++ s). by repeat split; [constructor|].
  - cbn in Heq. injection Heq as _ Heq. inversion Hb; subst.
    by exists b, t.
Qed.

Lemma sentenceShape_prefix (s x : jsstring) :
  SentenceShape (s ++ x) -> SentenceShape s.
Proof.
  induction x as [|c x IH] using rev_ind; [by rewrite app_nil_r|].
  intros (b & t & Heq & Hb & Ht). apply IH.
  rewrite app_assoc in Heq.
  destruct t as [|d t _] using rev_ind.
  - rewrite app_nil_r in Heq. subst b.
    apply Forall_app in Hb as [Hb _].
    exists (s ++ x), []. rewrite app_nil_r. by repeat split; [|constructor].
  - rewrite app_assoc in Heq. apply app_inj_tail in Heq as [Heq _].
    apply Forall_app in Ht as [Ht _]. by exists b, t.
Qed.

Lemma dropSpaces_decompose (s : jsstring) :
  exists ws, s = ws ++ dropSpaces s /\ allSpace ws.
Proof.
  induction s as [|c s (ws & Heq & Hws)]; [by exists []; split; [|constructor]|].
  cbn. destruct (Char.isWhiteSpace c) eqn:Hc.
  - exists (c :: ws). cbn. rewrite <- Heq. split; [done|by constructor].
  - exists []. split; [done|constructor].
Qed.

Lemma rtrim_decompose (s : jsstring) :
  exists ws, s = rtrim s ++ ws /\ allSpace ws.
Proof.
  destruct (dropSpaces_decompose (rev s)) as (ws & Heq & Hws).
  exists (rev ws). split; [|by apply allSpace_rev].
  unfold rtrim. rewrite <- rev_app_distr, <- Heq. by rewrite rev_involutive.
Qed.

Lemma trim_sentenceShape (m : jsstring) :
  SentenceShape m -> SentenceShape (trim m).
Proof.
  intros H. rewrite trim_rtrim.
  destruct (dropSpaces_decompose m) as (ws & Heq & _).
  rewrite Heq in H. apply sentenceShape_suffix in H.
  destruct (rtrim_decompose (dropSpaces m)) as (ws' & Heq' & _).
  rewrite Heq' in H. by apply sentenceShape_prefix in H.
Qed.

Lemma trim_starts (m : jsstring) : startsWithSpace (trim m) = false.
Proof.
  rewrite trim_rtrim.
  pose proof (dropSpaces_starts m) as Hd.
  destruct (rtrim_decompose (dropSpaces m)) as (ws & Heq & _).
  rewrite Heq in Hd. by destruct (rtrim (dropSpaces m)).
Qed.

Lemma trim_ends (m : jsstring) : endsWithSpace (trim m) = false.
Proof. rewrite trim_rtrim. apply rtrim_ends. Qed.

Lemma properSentence_of_shape (x : jsstring) :
  SentenceShape x -> x <> [] ->
  startsWithTerminator x = false ->
  startsWithSpace x = false -> endsWithSpace x = false ->
  ProperSentence x.
Proof.
  intros (b & t & -> & Hb & Ht) Hne Hst Hs He.
  exists b, t. repeat split; try done.
  intros ->. cbn in *. destruct Ht as [|c t Hc _]; [done|].
  cbn in Hst. congruence.
Qed.

Lemma properSentence_of_trim (m : jsstring) :
  SentenceShape m -> trim m <> [] ->
  startsWithTerminator (trim m) = false ->
  ProperSentence (trim m).
Proof.
  intros Hm Hne Hst. apply properSentence_of_shape; try done.
  - by apply trim_sentenceShape.
  - apply trim_starts.
  - apply trim_ends.
Qed.

Lemma endsWithTerminator_app (a b : jsstring) :
  b <> [] -> endsWithTerminator (a ++ b) = endsWithTerminator b.
Proof.
  intros Hb. unfold endsWithTerminator. rewrite rev_app_distr.
  destruct (rev b) eqn:Hr; [|done].
  apply (f_equal (@rev N)) in Hr. rewrite rev_involutive in Hr. done.
Qed.

Lemma terminated_not_spaced (s : jsstring) :
  endsWithTerminator s = true -> endsWithSpace s = false.
Proof.
  unfold endsWithTerminator, endsWithSpace. destruct (rev s) as [|c r]; [done|].
  intros Hc. destruct (Char.isWhiteSpace c) eqn:Hw; [|done].
  apply space_not_terminator in Hw. congruence.
Qed.

Lemma trim_terminated (m : jsstring) :
  endsWithTerminator m = true -> endsWithTerminator (trim m) = true.
Proof.
  intros Hm. rewrite trim_rtrim.
  destruct (dropSpaces_decompose m) as (ws & Heq & Hws).
  destruct (decide (dropSpaces m = [])) as [Hd|Hd].
  - rewrite Hd, app_nil_r in Heq. subst m.
    rewrite body_not_terminated in Hm; [done|].
    by apply allSpace_not_terminator.
  - rewrite Heq, endsWithTerminator_app in Hm by done.
    rewrite rtrim_visible; [done|]. by apply terminated_not_spaced.
Qed.

Lemma scan_first (s acc : jsstring) :
  (exists m ms, scanSentences (InBody acc) s = (rev acc ++ m) :: ms)
  /\ (exists m ms, scanSentences (InTerm acc) s = (rev acc ++ m) :: ms).
Proof.
  revert acc. induction s as [|c s IH]; intros acc.
  - split; exists [], []; cbn; by rewrite app_nil_r.
  - cbn [scanSentences]. destruct (Char.isTerminator c).
    + destruct (IH (c :: acc)) as [_ (m & ms & ->)].
      split; exists (c :: m), ms; cbn [rev]; by rewrite <- app_assoc.
    + split.
      * destruct (IH (c :: acc)) as [(m & ms & ->) _].
        exists (c :: m), ms. cbn [rev]. by rewrite <- app_assoc.
      * exists [], (scanSentences (InBody [c]) s). by rewrite app_nil_r.
Qed.

Lemma scan_idle_nil (s : jsstring) :
  scanSentences Idle s = [] ->
  Forall (fun c => Char.isTerminator c = true) s.
Proof.
  induction s as [|c s IH]; [constructor|]. cbn [scanSentences].
  destruct (Char.isTerminator c) eqn:Hc.
  - intros H. constructor; [done|by apply IH].
  - destruct (scan_first s [c]) as [(m & ms & ->) _]. done.
Qed.

(** A text that starts with a visible character other than a terminator
    yields a segment. *)
Lemma segsOf_scan_visible (t : jsstring) :
  t <> [] -> startsWithSpace t = false -> startsWithTerminator t = false ->
  segsOf (scanSentences Idle t) <> [].
Proof.
  destruct t as [|c t]; [done|]. cbn [startsWithSpace startsWithTerminator].
  intros _ Hs Ht. cbn [scanSentences]. rewrite Ht.
  destruct (scan_first t [c]) as [(m & ms & ->) _].
  rewrite segsOf_cons. unfold segsOf at 1. cbn [map List.filter rev app].
  rewrite trim_rtrim. cbn [dropSpaces]. rewrite Hs.
  change (c :: m) with ([c] ++ m). rewrite rtrim_app by (cbn; by rewrite Hs).
  done.
Qed.

(** When no segment of a text starts with a terminator, its segments are
    proper sentences, each but the last one ending in a terminator. *)
Lemma outputSegments_shape (text : jsstring) :
  Forall (fun s => startsWithTerminator s = false) (outputSegmentsOf text) ->
  Forall ProperSentence (outputSegmentsOf text)
  /\ AllButLast (fun s => endsWithTerminator s = true) (outputSegmentsOf text).
Proof.
  unfold outputSegmentsOf. set (t := trim text).
  destruct (nonEmpty t) eqn:Hne; [|split; constructor].
  apply nonEmpty_true in Hne.
  assert (Hts : startsWithSpace t = false) by apply trim_starts.
  assert (Hte : endsWithSpace t = false) by apply trim_ends.
  unfold matchSentences.
  destruct (scanSentences Idle t) as [|m0 ms0] eqn:Hscan.
  - (* nothing matches: the text is terminators only *)
    apply scan_idle_nil in Hscan.
    assert (Hshape : SentenceShape t).
    { exists [], t. by repeat split; [constructor|]. }
    fold (segsOf [t]). unfold segsOf. cbn [map List.filter].
    destruct (nonEmpty (trim t)) eqn:Hnt; intros Hproper;
      inversion Hproper as [|? ? Hst _]; subst.
    + apply nonEmpty_true in Hnt. split; [|constructor].
      constructor; [|constructor]. by apply properSentence_of_trim.
    + split; [|constructor]. constructor; [|constructor].
      by apply properSentence_of_shape.
  - fold (segsOf (m0 :: ms0)). rewrite <- Hscan.
    destruct (scan_shape t Idle I) as [Hshape Hchain].
    assert (Hall : Forall (fun s => startsWithTerminator s = false)
                     (segsOf (scanSentences Idle t)) ->
                   Forall ProperSentence (segsOf (scanSentences Idle t))
                   /\ AllButLast (fun s => endsWithTerminator s = true)
                        (segsOf (scanSentences Idle t))).
    { intros Hproper. split.
      - apply Forall_forall. intros x Hx.
        pose proof Hx as Hx'.
        apply list_elem_of_In, filter_In in Hx' as [Hin Hnx].
        apply in_map_iff in Hin as (m & <- & Hm).
        apply properSentence_of_trim.
        + rewrite Forall_forall in Hshape. by apply Hshape, list_elem_of_In.
        + by apply nonEmpty_true.
        + rewrite Forall_forall in Hproper. by apply Hproper.
      - apply allButLast_filter, allButLast_map.
        eapply allButLast_impl; [|exact Hchain]. apply trim_terminated. }
    destruct (segsOf (scanSentences Idle t)) as [|x xs] eqn:Hsegs.
    + intros Hproper. inversion Hproper as [|? ? Hst _]; subst.
      exfalso. by apply (segsOf_scan_visible t).
    + exact Hall.
Qed.

(** The segments of the text a pass computes are the segments the pass
    started from. *)
Lemma segments_of_processedOutput (html text : jsstring) :
  Forall (fun s => startsWithTerminator s = false) (outputSegmentsOf text) ->
  forallb isBlank (inputLinesOf html) = false ->
  outputSegmentsOf (processedOutputOf html text) = outputSegmentsOf text.
Proof.
  intros Hproper Hb. apply not_all_blank in Hb.
  destruct (outputSegments_shape text Hproper) as [Hsent Hchain].
  apply outputSegments_woven; [|done]. unfold processedOutputOf.
  eapply weave_squeeze; [|apply squeeze_postProcess].
  by apply weave_restore.
Qed.


(** ** Idempotence *)




(** * Further properties of the script *)

(** ** Segmentation (lines 188-203) *)

(** X1.  Every output segment is non-empty and has no whitespace at
    either end, whichever way it was obtained (a match of the sentence
    expression or the whole trimmed text). *)
Theorem segments_are_trimmed (text : jsstring) :
  Forall (fun seg => seg <> []
                     /\ startsWithSpace seg = false
                     /\ endsWithSpace seg = false
                     /\ trim seg = seg)
         (outputSegmentsOf text).
Proof.
  assert (Htrim : forall m, trim m <> [] ->
            trim m <> [] /\ startsWithSpace (trim m) = false
            /\ endsWithSpace (trim m) = false /\ trim (trim m) = trim m).
  { intros m Hm. split; [done|]. split; [apply trim_starts|].
    split; [apply trim_ends|].
    apply (trim_padded [] (trim m)); [constructor|apply trim_starts|apply trim_ends]. }
  unfold outputSegmentsOf.
  destruct (nonEmpty (trim text)) eqn:Hne; [|constructor].
  apply nonEmpty_true in Hne.
  destruct (List.filter nonEmpty _) as [|x xs] eqn:Hf.
  - constructor; [by apply Htrim|constructor].
  - rewrite <- Hf. apply Forall_forall. intros seg Hseg.
    apply list_elem_of_In, filter_In in Hseg as [Hin Hn].
    apply in_map_iff in Hin as (m & <- & _).
    apply Htrim. by apply nonEmpty_true.
Qed.

(** X2.  There is no output segment exactly when the output text is
    blank: a text with a visible character always yields a segment. *)
Theorem no_segments_iff_blank (text : jsstring) :
  outputSegmentsOf text = [] <-> trim text = [].
Proof.
  unfold outputSegmentsOf. split.
  - destruct (nonEmpty (trim text)) eqn:Hne; [|by apply nonEmpty_false in Hne].
    by destruct (List.filter nonEmpty _).
  - intros ->. done.
Qed.

(** X3.  An output text without '.', '!' and '?' is never split: its one
    segment is the trimmed text. *)
Theorem unpunctuated_text_is_one_segment (text : jsstring) :
  Forall (fun c => Char.isTerminator c = false) text ->
  trim text <> [] ->
  outputSegmentsOf text = [trim text].
Proof.
  intros Hnt Hne. set (t := trim text) in *.
  assert (Ht : Forall (fun c => Char.isTerminator c = false) t).
  { apply Forall_forall. intros c Hc. rewrite Forall_forall in Hnt.
    by apply Hnt, trim_elem. }
  assert (Hscan : scanSentences Idle t = [t]).
  { rewrite <- (app_nil_r t) at 1. rewrite scan_enter_idle by done.
    cbn. by rewrite rev_involutive. }
  assert (Hidem : trim t = t).
  { apply (trim_padded [] t); [constructor|apply trim_starts|apply trim_ends]. }
  unfold outputSegmentsOf. fold t.
  apply nonEmpty_true in Hne. rewrite Hne.
  unfold matchSentences. rewrite Hscan. cbn [map List.filter].
  by rewrite Hidem, Hne.
Qed.

Lemma unpunctuated_text_is_one_segment_witness :
  outputSegmentsOf (js "  Bonjour tout le monde ") = [js "Bonjour tout le monde"].
Proof.
  apply (unpunctuated_text_is_one_segment (js "  Bonjour tout le monde ")).
  - vm_compute. repeat constructor.
  - vm_compute. discriminate.
Defined.

(** ** Input lines (lines 176-178) *)

Lemma matchBr_head (s : jsstring) (len : nat) :
  matchBr s = Some len -> exists rest, s = Char.LT :: rest.
Proof.
  destruct s as [|c [|b [|r rest]]]; try done. cbn [matchBr].
  destruct (N.eqb_spec c Char.LT) as [->|_]; [by eexists|done].
Qed.

Lemma replaceBr_plain (s : jsstring) :
  Char.LT ∉ s -> replaceBrFrom 0 s = s.
Proof.
  induction s as [|c s IH]; [done|]. intros Hnot.
  apply not_elem_of_cons in Hnot as [Hc Hs].
  cbn [replaceBrFrom]. destruct (matchBr (c :: s)) as [len|] eqn:Hm.
  - apply matchBr_head in Hm as (rest & [= -> _]). done.
  - by rewrite IH.
Qed.

Lemma split_plain (s : jsstring) : Char.LF ∉ s -> split s = [s].
Proof.
  induction s as [|c s IH]; [done|]. intros Hnot.
  apply not_elem_of_cons in Hnot as [Hc Hs].
  cbn [split]. destruct (N.eqb_spec c Char.LF) as [->|_]; [done|].
  by rewrite IH.
Qed.

(** X4.  The input always has at least one line, and an input HTML with
    neither a tag opener nor a newline is its own single line. *)
Theorem plain_input_is_one_line (html : jsstring) :
  0 < length (inputLinesOf html)
  /\ (Char.LT ∉ html -> Char.LF ∉ html -> inputLinesOf html = [html]).
Proof.
  unfold inputLinesOf, replaceBr. split.
  - rewrite length_split. lia.
  - intros Hlt Hlf. rewrite replaceBr_plain by done. by apply split_plain.
Qed.

Lemma plain_input_is_one_line_witness :
  inputLinesOf (js "Hello, world") = [js "Hello, world"].
Proof.
  apply (plain_input_is_one_line (js "Hello, world"));
    apply LF_notin || apply (bool_decide_unpack _); vm_compute; done.
Defined.

Lemma dropSpaces_length (s : jsstring) : length (dropSpaces s) <= length s.
Proof.
  induction s as [|c s IH]; [done|]. cbn.
  destruct (Char.isWhiteSpace c); cbn; lia.
Qed.

Lemma matchBr_length (s : jsstring) (len : nat) :
  matchBr s = Some len -> 0 < len <= length s.
Proof.
  destruct s as [|c [|b [|r rest]]]; try done. cbn [matchBr length].
  destruct (_ && _); [|done].
  pose proof (dropSpaces_length rest) as Hle.
  destruct (dropSpaces rest) as [|c0 t0] eqn:Hd; [done|]. cbn [length] in Hle.
  destruct (N.eqb c0 Char.GT); [intros [= <-]; lia|].
  destruct (N.eqb c0 Char.SLASH); [|done].
  destruct t0 as [|d t0]; [done|]. cbn [length] in Hle.
  destruct (N.eqb d Char.GT); [intros [= <-]; lia|done].
Qed.

(** A match does not depend on what follows it. *)
Lemma matchBr_app (s b : jsstring) (len : nat) :
  matchBr s = Some len -> matchBr (s ++ b) = Some len.
Proof.
  destruct s as [|c [|e [|r rest]]]; try done. cbn [matchBr app].
  destruct (_ && _); [|done].
  destruct (dropSpaces rest) as [|c0 t0] eqn:Hd; [done|].
  rewrite dropSpaces_app_visible by (by rewrite Hd). rewrite Hd. cbn [app].
  cbn [length]. rewrite !length_app.
  replace (length rest + length b - S (length t0 + length b))
    with (length rest - S (length t0)) by lia.
  destruct (N.eqb c0 Char.GT); [done|].
  destruct (N.eqb c0 Char.SLASH); [|done].
  by destruct t0.
Qed.

(** A match that starts before a ['<'] ends before it. *)
Lemma matchBr_before_lt (x r : jsstring) :
  x <> [] -> matchBr (x ++ Char.LT :: r) = matchBr x.
Proof.
  intros Hx. destruct x as [|c [|e [|f x]]]; [done| | |].
  - cbn [app matchBr]. destruct r as [|g r]; [done|].
    change (Char.isB Char.LT) with false. by rewrite andb_false_r.
  - cbn [app matchBr].
    change (Char.isR Char.LT) with false. by rewrite andb_false_r.
  - cbn [app matchBr]. destruct (_ && _); [|done].
    destruct (dropSpaces x) as [|c0 t0] eqn:Hd.
    + apply dropSpaces_nil_allSpace in Hd.
      rewrite dropSpaces_allSpace by done. cbn [dropSpaces].
      change (Char.isWhiteSpace Char.LT) with false. cbv iota.
      change (N.eqb Char.LT Char.GT) with false.
      change (N.eqb Char.LT Char.SLASH) with false. done.
    + rewrite dropSpaces_app_visible by (by rewrite Hd). rewrite Hd.
      cbn [app]. cbn [length]. rewrite !length_app. cbn [length].
      replace (length x + S (length r) - S (length t0 + S (length r)))
        with (length x - S (length t0)) by lia.
      destruct (N.eqb c0 Char.GT); [done|].
      destruct (N.eqb c0 Char.SLASH); [|done].
      destruct t0 as [|d t0]; [|done]. cbn [app].
      by change (N.eqb Char.LT Char.GT) with false.
Qed.

Lemma replaceBrFrom_skip (x b : jsstring) :
  replaceBrFrom (length x) (x ++ b) = replaceBrFrom 0 b.
Proof.
  induction x as [|c x IH]; [done|]. cbn [length app replaceBrFrom]. exact IH.
Qed.

Lemma replaceBr_before_lt (a r : jsstring) (skip : nat) :
  skip <= length a ->
  replaceBrFrom skip (a ++ Char.LT :: r)
    = replaceBrFrom skip a ++ replaceBrFrom 0 (Char.LT :: r).
Proof.
  revert skip. induction a as [|c a IH]; intros skip Hskip.
  - cbn in Hskip. by replace skip with 0 by lia.
  - cbn [length] in Hskip. destruct skip as [|k].
    + change ((c :: a) ++ Char.LT :: r) with (c :: (a ++ Char.LT :: r)).
      cbn [replaceBrFrom].
      change (c :: (a ++ Char.LT :: r)) with ((c :: a) ++ Char.LT :: r).
      rewrite matchBr_before_lt by done.
      destruct (matchBr (c :: a)) as [len|] eqn:Hm.
      * apply matchBr_length in Hm. cbn [length] in Hm.
        rewrite IH by lia. done.
      * rewrite IH by lia. done.
    + cbn [app replaceBrFrom]. apply IH. lia.
Qed.

Lemma split_app_LF (u v : jsstring) :
  split (u ++ Char.LF :: v) = split u ++ split v.
Proof.
  induction u as [|c u IH]; [done|]. cbn [app split]. rewrite IH.
  destruct (N.eqb c Char.LF); [done|].
  destruct (split u) as [|l ls] eqn:Hs; [|done].
  apply (f_equal length) in Hs. by rewrite length_split in Hs.
Qed.

(** X5.  A line-break tag in any of its spellings ([<br>], [<BR/>],
    [<br />], ...) separates the lines before it from the lines after it,
    whatever surrounds it. *)
Theorem br_tag_separates_lines (a tag b : jsstring) :
  matchBr tag = Some (length tag) ->
  inputLinesOf (a ++ tag ++ b) = inputLinesOf a ++ inputLinesOf b.
Proof.
  intros Htag. pose proof (matchBr_head _ _ Htag) as (tl & ->).
  unfold inputLinesOf, replaceBr.
  change ((Char.LT :: tl) ++ b) with (Char.LT :: (tl ++ b)).
  rewrite replaceBr_before_lt by lia.
  cbn [replaceBrFrom].
  change (Char.LT :: (tl ++ b)) with ((Char.LT :: tl) ++ b).
  rewrite (matchBr_app _ b _ Htag). cbn [length Nat.sub].
  rewrite Nat.sub_0_r, replaceBrFrom_skip.
  apply split_app_LF.
Qed.

Lemma br_tag_separates_lines_witness :
  inputLinesOf (js "one<b" ++ js "<BR  />" ++ js "two<br>")
    = [js "one<b"; js "two"; []].
Proof.
  rewrite (br_tag_separates_lines (js "one<b") (js "<BR  />") (js "two<br>"));
    reflexivity.
Defined.

(** ** The e-mail post-processing (lines 254-260) *)

Lemma includes_singleton (c : N) (s : jsstring) :
  includes [c] s = true <-> c ∈ s.
Proof.
  induction s as [|d s IH]; [cbn; split; [done|by intros ?%elem_of_nil]|].
  cbn [includes startsWith]. rewrite andb_true_r, orb_true_iff, IH, elem_of_cons.
  by rewrite N.eqb_eq.
Qed.

Lemma split_elem (s l : jsstring) (c : N) :
  l ∈ split s -> c ∈ l -> c ∈ s.
Proof.
  revert l. induction s as [|d s IH]; intros l Hl Hc.
  - apply list_elem_of_singleton in Hl. by subst l.
  - cbn [split] in Hl. destruct (N.eqb d Char.LF).
    + apply elem_of_cons in Hl as [->|Hl]; [by apply elem_of_nil in Hc|].
      apply elem_of_cons. right. by apply (IH l).
    + destruct (split s) as [|l0 ls] eqn:Hs.
      * apply list_elem_of_singleton in Hl. subst l.
        apply list_elem_of_singleton in Hc. subst c. by left.
      * apply elem_of_cons in Hl as [->|Hl].
        -- apply elem_of_cons in Hc as [->|Hc]; [by left|].
           apply elem_of_cons. right. apply (IH l0); [by left|done].
        -- apply elem_of_cons. right. apply (IH l); [by right|done].
Qed.

(** X6.  A text without ['@'] passes the e-mail post-processing
    unchanged. *)
Theorem postProcess_without_at (s : jsstring) :
  Char.AT ∉ s -> postProcess s = s.
Proof.
  intros Hat. unfold postProcess.
  rewrite <- (join_split s) at 2. f_equal.
  rewrite <- (map_id (split s)) at 2.
  apply map_ext_in. intros l Hl. unfold fixEmailLine.
  destruct (includes [Char.AT] l) eqn:Hinc; [|done].
  apply includes_singleton in Hinc. exfalso. apply Hat.
  apply (split_elem s l); [by apply list_elem_of_In|done].
Qed.

Lemma postProcess_without_at_witness :
  postProcess (js "Bonjour. Ca va?") = js "Bonjour. Ca va?".
Proof.
  apply (postProcess_without_at (js "Bonjour. Ca va?")).
  apply (bool_decide_unpack _). vm_compute. done.
Defined.

Lemma replaceDotSpaceFrom_elem (b : bool) (s : jsstring) (c : N) :
  c ∈ replaceDotSpaceFrom b s -> c ∈ s.
Proof.
  revert b. induction s as [|d s IH]; intros b; [done|].
  cbn [replaceDotSpaceFrom]. destruct (b && Char.isWhiteSpace d).
  - intros H. apply elem_of_cons. right. by apply (IH true).
  - intros H. apply elem_of_cons in H as [->|H]; [by left|].
    apply elem_of_cons. right. by apply (IH _ H).
Qed.

Lemma hasDotSpace_replaceDotSpaceFrom (b : bool) (s : jsstring) :
  hasDotSpace (replaceDotSpaceFrom b s) = false
  /\ (b = true -> startsWithSpace (replaceDotSpaceFrom b s) = false).
Proof.
  revert b. induction s as [|c s IH]; intros b; [done|].
  cbn [replaceDotSpaceFrom]. destruct (b && Char.isWhiteSpace c) eqn:Hskip.
  - destruct (IH true) as [H1 H2]. split; [done|]. intros _. by apply H2.
  - destruct (IH (N.eqb c Char.DOT)) as [H1 H2]. cbn [hasDotSpace]. split.
    + rewrite H1, orb_false_r.
      destruct (N.eqb c Char.DOT); [|done]. by rewrite H2.
    + intros ->. cbn in Hskip |- *. done.
Qed.

Lemma split_join (ls : list jsstring) :
  Forall (fun l => countLF l = 0) ls -> ls <> [] -> split (join ls) = ls.
Proof.
  induction 1 as [|l ls Hl Hls IH]; [done|]. intros _.
  apply LF_notin in Hl.
  destruct ls as [|l' ls]; [by apply split_plain|].
  rewrite join_cons, split_app_LF, split_plain by done.
  by rewrite IH.
Qed.

Lemma split_postProcess (s : jsstring) :
  split (postProcess s) = map fixEmailLine (split s).
Proof.
  unfold postProcess. apply split_join.
  - apply Forall_map. eapply Forall_impl; [apply split_lines_no_LF|].
    intros l Hl. by apply fixEmailLine_no_LF.
  - intros H. apply (f_equal length) in H.
    by rewrite length_map, length_split in H.
Qed.

(** X7.  After the post-processing, no line of the text that contains
    ['@'] has a dot followed by whitespace. *)
Theorem email_lines_have_no_dot_space (s line : jsstring) :
  line ∈ split (postProcess s) ->
  Char.AT ∈ line ->
  hasDotSpace line = false.
Proof.
  rewrite split_postProcess. intros Hline Hat.
  apply list_elem_of_In, in_map_iff in Hline as (l & <- & _).
  unfold fixEmailLine in *.
  destruct (includes [Char.AT] l) eqn:Hinc.
  - apply hasDotSpace_replaceDotSpaceFrom.
  - apply includes_singleton in Hat. congruence.
Qed.

Lemma email_lines_have_no_dot_space_witness :
  hasDotSpace (js "mail me@site. com. now") = true
  /\ postProcess (js "mail me@site. com. now") = js "mail me@site.com.now"
  /\ hasDotSpace (js "mail me@site.com.now") = false.
Proof.
  split; [reflexivity|]. split; [reflexivity|].
  apply (email_lines_have_no_dot_space (js "mail me@site. com. now"));
    apply (bool_decide_unpack _); vm_compute; done.
Defined.

(** ** The rewrite changes whitespace only *)

Lemma visible_app (s t : jsstring) : visible (s ++ t) = visible s ++ visible t.
Proof. apply List.filter_app. Qed.

Lemma visible_allSpace (ws : jsstring) : allSpace ws -> visible ws = [].
Proof.
  induction 1 as [|c ws Hc _ IH]; [done|]. unfold visible in *. cbn.
  by rewrite Hc.
Qed.

Lemma visible_join (ls : list jsstring) :
  visible (join ls) = visible (concat ls).
Proof.
  induction ls as [|l ls IH]; [done|].
  destruct ls as [|l' ls]; [cbn; by rewrite app_nil_r|].
  rewrite join_cons by done.
  change (l ++ Char.LF :: join (l' :: ls))
    with (l ++ [Char.LF] ++ join (l' :: ls)).
  change (concat (l :: l' :: ls)) with (l ++ concat (l' :: ls)).
  rewrite !visible_app, IH. done.
Qed.

Lemma visible_squeeze (s s' : jsstring) : Squeeze s s' -> visible s = visible s'.
Proof.
  induction 1 as [|c s s' _ IH|ws s s' Hws _ IH]; [done| |].
  - change (c :: s) with ([c] ++ s). change (c :: s') with ([c] ++ s').
    by rewrite !visible_app, IH.
  - change (Char.DOT :: ws ++ s) with ([Char.DOT] ++ ws ++ s).
    change (Char.DOT :: s') with ([Char.DOT] ++ s').
    rewrite !visible_app, IH. by rewrite (visible_allSpace ws).
Qed.

Lemma visible_glue (line segment : jsstring) :
  visible (glue line segment) = visible line ++ visible segment.
Proof.
  unfold glue. destruct (_ && _); rewrite !visible_app; [|done].
  change (visible [Char.SPACE]) with (@nil N). by rewrite app_nil_r.
Qed.

Lemma visible_fold_glue (extras : list jsstring) (line : jsstring) :
  visible (fold_left glue extras line)
    = visible line ++ visible (concat extras).
Proof.
  revert line. induction extras as [|seg extras IH]; intros line.
  - cbn. by rewrite app_nil_r.
  - cbn [fold_left concat]. rewrite IH, visible_glue, visible_app.
    by rewrite <- app_assoc.
Qed.

Lemma concat_blanks (b : nat) : concat (replicate b (@nil N)) = [].
Proof. induction b as [|b IH]; [done|]. exact IH. Qed.

Lemma visible_restore (lines segs : list jsstring) :
  Forall (fun s => s <> []) segs ->
  0 < length (nonBlankLines lines) ->
  visible (concat (fst (restore lines segs))) = visible (concat segs).
Proof.
  intros Hne Hpos.
  destruct (decide (length segs <= length (nonBlankLines lines))) as [Hle|Hgt].
  { rewrite restore_no_extras by done. cbn [fst].
    by rewrite concat_aligned, take_ge. }
  destruct (restore_extras lines segs Hne) as (k & l & Hk & Hb & Hr & Hlater & ->);
    [lia|]. cbn [fst].
  set (arr := imap (alignedAt segs lines) lines).
  destruct (lookup_lt_is_Some_2 segs (rank lines k)) as [seg Hseg]; [lia|].
  assert (Hak : arr !! k = Some seg).
  { unfold arr. rewrite list_lookup_imap, Hk. cbn.
    unfold alignedAt. by rewrite Hb, Hseg. }
  assert (Hblanks : drop (S k) arr = replicate (length arr - S k) []).
  { apply blanks_after. intros j y Hj. unfold arr. rewrite list_lookup_imap.
    destruct (lines !! j) as [lj|] eqn:Hlj; cbn; [|done].
    intros [= <-]. unfold alignedAt. by rewrite (Hlater j lj Hj Hlj). }
  pose proof (concat_aligned segs lines) as Hc. fold arr in Hc.
  rewrite <- (take_drop_middle _ _ _ Hak), Hblanks in Hc.
  rewrite concat_app in Hc. cbn [concat] in Hc.
  rewrite concat_blanks, app_nil_r in Hc.
  rewrite insert_take_drop by (by eapply lookup_lt_Some).
  rewrite Hblanks, concat_app. cbn [concat].
  rewrite concat_blanks, app_nil_r.
  rewrite (gluedFrom_lookup _ _ _ Hseg), Hr.
  rewrite visible_app, visible_fold_glue, app_assoc, <- visible_app, Hc.
  rewrite <- visible_app, <- concat_app. by rewrite take_drop.
Qed.

(** X8.  For an input with a non-blank line, the text a pass computes
    differs from the output segments in whitespace only: without
    whitespace, it is the segments put end to end.  No visible character
    of a segment is lost, added or moved. *)
Theorem rewrite_changes_whitespace_only (html text : jsstring) :
  forallb isBlank (inputLinesOf html) = false ->
  visible (processedOutputOf html text)
    = visible (concat (outputSegmentsOf text)).
Proof.
  intros Hb. apply not_all_blank in Hb. unfold processedOutputOf.
  rewrite <- (visible_squeeze _ _ (squeeze_postProcess _)).
  rewrite visible_join. apply visible_restore; [|done].
  apply outputSegments_nonEmpty.
Qed.

Lemma rewrite_changes_whitespace_only_witness :
  visible (processedOutputOf (js "a<br><br>b") (js "Un. Deux! Trois?"))
    = js "Un.Deux!Trois?".
Proof.
  rewrite (rewrite_changes_whitespace_only (js "a<br><br>b") (js "Un. Deux! Trois?"));
    reflexivity.
Defined.

(** ** Passes of the realignment routine (lines 158-265) *)

Lemma warningsOf_write (text v : jsstring) :
  warningsOf (if strictEq text v then [] else outputEvents) = [].
Proof. by destruct (strictEq text v). Qed.

(** X9.  A pass over an input with a non-blank line logs one warning for
    each non-blank line left without a segment, then one for each segment
    left over, and nothing else: as many warnings as the two counts
    differ by, none when they are equal. *)
Theorem warnings_count_the_mismatch (p : Page) (html text : jsstring) :
  inputHTML p = Some html ->
  outputText p = Some text ->
  unchanged p html text = false ->
  forallb isBlank (inputLinesOf html) = false ->
  let lines := nonBlankLines (inputLinesOf html) in
  let segs := outputSegmentsOf text in
  warningsOf (effectsOf processTranslationLineBreaks p)
    = map mismatchWarningFor (drop (length segs) lines)
      ++ map extraWarningFor (drop (length lines `min` length segs) segs)
  /\ length (warningsOf (effectsOf processTranslationLineBreaks p))
     = (length lines - length segs) + (length segs - length lines)
  /\ (length lines = length segs ->
      warningsOf (effectsOf processTranslationLineBreaks p) = []).
Proof.
  intros Hin Hout Hg Hb. cbv zeta.
  assert (Hw : warningsOf (effectsOf processTranslationLineBreaks p)
    = map mismatchWarningFor
        (drop (length (outputSegmentsOf text)) (nonBlankLines (inputLinesOf html)))
      ++ map extraWarningFor
           (drop (length (nonBlankLines (inputLinesOf html))
                  `min` length (outputSegmentsOf text)) (outputSegmentsOf text))).
  { rewrite (effects_of_pass p html text Hin Hout Hg), Hb.
    rewrite warningsOf_app, warningsOf_write, app_nil_r.
    by rewrite restore_log_warnings, restore_log. }
  split; [done|]. rewrite Hw. split.
  - rewrite length_app, !length_map, !length_drop. lia.
  - intros Heq. rewrite Heq, Nat.min_id, drop_all.
    rewrite <- Heq, drop_all. done.
Qed.

Lemma warnings_count_the_mismatch_witness :
  let p := freshPage (js "one<br>two") (js "Un. Deux. Trois. Quatre.") in
  length (warningsOf (effectsOf processTranslationLineBreaks p)) = 2.
Proof.
  intros p.
  destruct (warnings_count_the_mismatch p (js "one<br>two")
              (js "Un. Deux. Trois. Quatre.")) as (_ & Hlen & _);
    [reflexivity..|].
  exact Hlen.
Defined.

Lemma retained_after_pass (p : Page) (html text : jsstring) :
  inputHTML p = Some html ->
  outputText p = Some text ->
  unchanged p html text = false ->
  inputHTML (finalPage processTranslationLineBreaks p) = Some html
  /\ lastProcessedInputHTML (finalPage processTranslationLineBreaks p) = html
  /\ lastProcessedOutputText (finalPage processTranslationLineBreaks p) = text.
Proof.
  intros Hin Hout Hg.
  assert (Hpa : forall log v,
            inputHTML (pageAfter p html text log v) = Some html
            /\ lastProcessedInputHTML (pageAfter p html text log v) = html
            /\ lastProcessedOutputText (pageAfter p html text log v) = text).
  { intros log v. unfold pageAfter. by destruct (strictEq text v). }
  unfold finalPage. destruct (forallb isBlank (inputLinesOf html)) eqn:Hb.
  - rewrite (run_all_blank p html text Hin Hout Hg Hb). apply Hpa.
  - rewrite (run_segmented p html text Hin Hout Hg Hb). apply Hpa.
Qed.

(** X10.  After a pass, the retained output text is the text the pass
    read, not the text it wrote.  So, the host page doing nothing in
    between, the next invocation is skipped by the guard of line 170
    exactly when this pass wrote nothing. *)
Theorem next_pass_skipped_iff_nothing_written (p : Page) (html text : jsstring) :
  inputHTML p = Some html ->
  outputText p = Some text ->
  unchanged p html text = false ->
  let p' := finalPage processTranslationLineBreaks p in
  lastProcessedInputHTML p' = html
  /\ lastProcessedOutputText p' = text
  /\ (processTranslationLineBreaks p' = (Normal tt, p')
      <-> resegment html text = text).
Proof.
  intros Hin Hout Hg p'.
  destruct (retained_after_pass p html text Hin Hout Hg) as (Hin' & Hli & Hlo).
  pose proof (run_processed p html text Hin Hout Hg) as Hout'.
  fold p' in Hin', Hli, Hlo, Hout'.
  split; [done|]. split; [done|].
  destruct (unchanged p' html (resegment html text)) eqn:Hg'.
  - split.
    + intros _. unfold unchanged in Hg'. apply andb_true_iff in Hg' as [_ H].
      apply strictEq_true in H. by rewrite Hlo in H.
    + intros _. by apply (run_unchanged p' html (resegment html text)).
  - assert (Hne : resegment html text <> text).
    { intros Heq. unfold unchanged in Hg'.
      by rewrite Hli, Hlo, Heq, !strictEq_refl in Hg'. }
    split; [|done]. intros Hrun. exfalso.
    destruct (retained_after_pass p' html _ Hin' Hout' Hg') as (_ & _ & H).
    unfold finalPage in H. rewrite Hrun in H. cbn in H. congruence.
Qed.

Lemma next_pass_skipped_iff_nothing_written_witness :
  let p := freshPage (js "one<br>two") (js "Un. Deux.") in
  let p' := finalPage processTranslationLineBreaks p in
  outputText p' = Some (js "Un." ++ Char.LF :: js "Deux.")
  /\ lastProcessedOutputText p' = js "Un. Deux."
  /\ processTranslationLineBreaks p' <> (Normal tt, p').
Proof.
  intros p p'.
  destruct (next_pass_skipped_iff_nothing_written p (js "one<br>two") (js "Un. Deux."))
    as (_ & Hlo & Hiff); [reflexivity..|].
  split; [reflexivity|]. split; [exact Hlo|].
  intros H. apply Hiff in H. discriminate H.
Defined.

Lemma resegment_twice (html text : jsstring) :
  Forall (fun s => startsWithTerminator s = false) (outputSegmentsOf text) ->
  resegment html (resegment html text) = resegment html text.
Proof.
  intros Hproper. unfold resegment.
  destruct (forallb isBlank (inputLinesOf html)) eqn:Hb; [done|].
  unfold processedOutputOf at 1. by rewrite segments_of_processedOutput.
Qed.

(** X11.  When no segment of the output text begins with a sentence
    terminator, the routine settles within two passes: the host page
    doing nothing in between, the third invocation finds nothing to do
    and leaves the page exactly as the second one left it. *)
Theorem settles_within_two_passes (p : Page) (html text : jsstring) :
  inputHTML p = Some html ->
  outputText p = Some text ->
  Forall (fun s => startsWithTerminator s = false) (outputSegmentsOf text) ->
  let p1 := finalPage processTranslationLineBreaks p in
  let p2 := finalPage processTranslationLineBreaks p1 in
  processTranslationLineBreaks p2 = (Normal tt, p2)
  /\ outputText p2 = outputText p1.
Proof.
  intros Hin Hout Hproper p1 p2.
  destruct (unchanged p html text) eqn:Hg.
  { assert (Hp1 : p1 = p).
    { unfold p1, finalPage. by rewrite (run_unchanged p html text Hin Hout Hg). }
    assert (Hp2 : p2 = p) by (unfold p2; by rewrite Hp1).
    rewrite Hp2, Hp1. split; [|done]. by apply (run_unchanged p html text). }
  destruct (retained_after_pass p html text Hin Hout Hg) as (Hin1 & Hli1 & Hlo1).
  pose proof (run_processed p html text Hin Hout Hg) as Hout1.
  fold p1 in Hin1, Hli1, Hlo1, Hout1.
  set (R := resegment html text) in *.
  destruct (unchanged p1 html R) eqn:Hg1.
  { assert (Hp2 : p2 = p1).
    { unfold p2, finalPage. by rewrite (run_unchanged p1 html R Hin1 Hout1 Hg1). }
    rewrite Hp2. split; [|done]. by apply (run_unchanged p1 html R). }
  destruct (retained_after_pass p1 html R Hin1 Hout1 Hg1) as (Hin2 & Hli2 & Hlo2).
  pose proof (run_processed p1 html R Hin1 Hout1 Hg1) as Hout2.
  fold p2 in Hin2, Hli2, Hlo2, Hout2.
  unfold R in Hout2. rewrite resegment_twice in Hout2 by done. fold R in Hout2.
  split; [|by rewrite Hout1, Hout2].
  apply (run_unchanged p2 html R Hin2 Hout2).
  unfold unchanged. by rewrite Hli2, Hlo2, !strictEq_refl.
Qed.

Lemma settles_within_two_passes_witness :
  let p := freshPage (js "one<br><br>two") (js "Un. Deux. Trois.") in
  let p1 := finalPage processTranslationLineBreaks p in
  let p2 := finalPage processTranslationLineBreaks p1 in
  processTranslationLineBreaks p2 = (Normal tt, p2)
  /\ outputText p2 = outputText p1.
Proof.
  intros p.
  apply (settles_within_two_passes p (js "one<br><br>two") (js "Un. Deux. Trois."));
    [reflexivity..|].
  vm_compute. repeat constructor.
Defined.

(** X12.  Whatever the page, a call of the routine returns normally,
    only adds to the trace, and leaves the input region, the tone
    selector and the pending promise reactions as they were. *)
Theorem pass_leaves_the_rest_alone (p : Page) :
  let p' := finalPage processTranslationLineBreaks p in
  completion processTranslationLineBreaks p = Normal tt
  /\ inputHTML p' = inputHTML p
  /\ toneValue p' = toneValue p
  /\ swapButton p' = swapButton p
  /\ microtasks p' = microtasks p
  /\ exists es, trace p' = trace p ++ es.
Proof.
  intros p'.
  assert (Hpa : forall html text log v,
            inputHTML (pageAfter p html text log v) = inputHTML p
            /\ toneValue (pageAfter p html text log v) = toneValue p
            /\ swapButton (pageAfter p html text log v) = swapButton p
            /\ microtasks (pageAfter p html text log v) = microtasks p
            /\ exists es, trace (pageAfter p html text log v) = trace p ++ es).
  { intros html text log v. repeat split; try (unfold pageAfter; by destruct (strictEq text v)).
    rewrite trace_pageAfter. by eexists. }
  unfold p', completion, finalPage.
  destruct (inputHTML p) as [html|] eqn:Hin;
    [destruct (outputText p) as [text|] eqn:Hout|].
  - destruct (unchanged p html text) eqn:Hg.
    + rewrite (run_unchanged p html text Hin Hout Hg). cbn.
      rewrite Hin. repeat split. exists []. by rewrite app_nil_r.
    + destruct (forallb isBlank (inputLinesOf html)) eqn:Hb.
      * rewrite (run_all_blank p html text Hin Hout Hg Hb). cbn [fst snd].
        split; [done|]. rewrite ?Hin. apply Hpa.
      * rewrite (run_segmented p html text Hin Hout Hg Hb). cbn [fst snd].
        split; [done|]. rewrite ?Hin. apply Hpa.
  - cbv [processTranslationLineBreaks bind get]. rewrite Hin, Hout. cbn.
    rewrite Hin. repeat split. by eexists.
  - cbv [processTranslationLineBreaks bind get]. rewrite Hin. cbn.
    rewrite Hin. repeat split. by eexists.
Qed.

(** ** Tone, keyboard and clipboard *)

(** X13.  [selectTone] settles at once: with the tone selector on the
    page, after one call the selector holds the requested tone, a single
    [change] event was dispatched if the tone had to change and none
    otherwise, and a second call leaves the page as it is.  Without the
    selector, a call only logs a warning. *)
Theorem selectTone_settles (toneText : jsstring) (p : Page) :
  let p1 := finalPage (selectTone toneText) p in
  (forall value, toneValue p = Some value ->
     toneValue p1 = Some toneText
     /\ dispatches (effectsOf (selectTone toneText) p)
        = (if strictEq value toneText then []
           else [(ToneSelect, js "change")])
     /\ selectTone toneText p1 = (Normal tt, p1))
  /\ (toneValue p = None ->
        toneValue p1 = None
        /\ effectsOf (selectTone toneText) p
           = [EWarn (js "Tone select element (#tta_tonesl) not found.") None]).
Proof.
  intros p1. split.
  - intros value Hv. destruct (strictEq value toneText) eqn:Heq.
    + apply strictEq_true in Heq. subst value.
      pose proof (run_selectTone_same toneText p Hv) as Hrun.
      assert (Hp1 : p1 = p) by (unfold p1, finalPage; by rewrite Hrun).
      rewrite Hp1. split; [done|]. split; [|done].
      rewrite (effectsOf_nil (selectTone toneText) p); [done|].
      unfold finalPage. by rewrite Hrun.
    + apply strictEq_false in Heq.
      pose proof (run_selectTone_other toneText value p Hv Heq) as Hrun.
      assert (Ht : toneValue p1 = Some toneText).
      { unfold p1, finalPage. by rewrite Hrun. }
      split; [done|]. split; [|by apply run_selectTone_same].
      rewrite (effectsOf_app (selectTone toneText) p
                 [EDispatch ToneSelect (js "change");
                  ELog (js "Tone set to: " ++ toneText)]); [done|].
      unfold finalPage. by rewrite Hrun.
  - intros Hn. unfold p1, finalPage, effectsOf, finalPage.
    cbv [selectTone bind get]. rewrite on_bing. cbn [negb]. rewrite Hn.
    cbv [emit modify]. cbn [snd withTrace toneValue trace].
    split; [done|]. by rewrite drop_app_length.
Qed.

Lemma selectTone_settles_witness :
  let p := freshPage (js "Hello") (js "Bonjour") in
  let p1 := finalPage (selectTone (js "Casual")) p in
  toneValue p1 = Some (js "Casual")
  /\ selectTone (js "Casual") p1 = (Normal tt, p1).
Proof.
  intros p p1.
  destruct (selectTone_settles (js "Casual") p) as [H _].
  destruct (H (js "Standard") eq_refl) as (Ht & _ & Hagain).
  split; [exact Ht | exact Hagain].
Defined.

Lemma run_copyPlainText (text : jsstring) (p : Page) :
  copyPlainText text p = (Normal tt, pageAfterCopy p text).
Proof.
  unfold pageAfterCopy. cbv [copyPlainText bind get].
  destruct (clipboardWriteText p) as [writeText|] eqn:Hapi.
  - cbv [emit modify]. by destruct (writeText text).
  - apply run_fallbackCopyText.
Qed.

Lemma pageAfterCopy_frame (p : Page) (text : jsstring) :
  inputHTML (pageAfterCopy p text) = inputHTML p
  /\ outputText (pageAfterCopy p text) = outputText p
  /\ toneValue (pageAfterCopy p text) = toneValue p
  /\ lastProcessedInputHTML (pageAfterCopy p text) = lastProcessedInputHTML p
  /\ lastProcessedOutputText (pageAfterCopy p text) = lastProcessedOutputText p.
Proof.
  unfold pageAfterCopy. destruct (clipboardWriteText p) as [writeText|]; [|done].
  by destruct (writeText text).
Qed.

(** X14.  The keyboard handler never throws and never touches the
    translation: whatever the event and the page, the input HTML, the
    output text and the strings retained by the realignment routine are
    what they were; without Alt the page is left as it is. *)
Theorem handleKeydown_leaves_texts_alone (event : KeyboardEvent) (p : Page) :
  let p' := finalPage (handleKeydown event) p in
  completion (handleKeydown event) p = Normal tt
  /\ inputHTML p' = inputHTML p
  /\ outputText p' = outputText p
  /\ lastProcessedInputHTML p' = lastProcessedInputHTML p
  /\ lastProcessedOutputText p' = lastProcessedOutputText p
  /\ (altKey event = false -> p' = p).
Proof.
  intros p'. unfold p', completion, finalPage. rewrite handleKeydown_cases.
  destruct (altKey event); cbn [andb]; [|done].
  destruct (strictEq (key event) (js "z")).
  { cbv [bind emit modify]. destruct (outputText p) as [t|] eqn:Hout;
      [destruct (nonEmpty t)|]; cbn [ret fst snd]; try done.
    rewrite run_copyPlainText. cbn [fst snd].
    pose proof (pageAfterCopy_frame (withTrace p (trace p ++ [EPreventDefault]))
                  (trim t)) as (H1 & H2 & _ & H3 & H4).
    rewrite H1, H2, H3, H4. cbn. by rewrite Hout. }
  destruct (strictEq (key event) (js "s")).
  { cbv [bind emit modify clickElement]. by destruct (swapButton p). }
  destruct (strictEq (key event) (js "a")); [|done].
  cbv [bind emit modify]. destruct (toneValue p) as [v|] eqn:Hv; [|done].
  set (q := withTrace p (trace p ++ [EPreventDefault])).
  assert (Hq : toneValue q = Some v) by done.
  rewrite (run_selectTone_other _ v q Hq (otherTone_differs v)). done.
Qed.

(** X15.  [fallbackCopyText] always returns normally and always takes
    its textarea out again: the append is the first effect of a call and
    the removal the last one, also when [execCommand] throws, in which
    case the error is logged and nothing is copied. *)
Theorem fallback_always_cleans_up (text : jsstring) (p : Page) :
  completion (fallbackCopyText text) p = Normal tt
  /\ head (effectsOf (fallbackCopyText text) p) = Some (EAppendTextarea text)
  /\ last (effectsOf (fallbackCopyText text) p) = Some ERemoveTextarea
  /\ (forall e, execCommandError p = Some e ->
        EError (js "Fallback: Oops, unable to copy") e
          ∈ effectsOf (fallbackCopyText text) p
        /\ EExecCopy ∉ effectsOf (fallbackCopyText text) p)
  /\ (execCommandError p = None ->
        EExecCopy ∈ effectsOf (fallbackCopyText text) p).
Proof.
  assert (He : effectsOf (fallbackCopyText text) p = fallbackEffects p text).
  { apply effectsOf_app. unfold finalPage. by rewrite run_fallbackCopyText. }
  unfold completion. rewrite He, run_fallbackCopyText. unfold fallbackEffects.
  split; [done|]. split; [done|].
  destruct (execCommandError p) as [e0|].
  - split; [done|]. split; [|done]. intros e [= <-]. split.
    + apply list_elem_of_In. cbn. tauto.
    + intros H. apply list_elem_of_In in H. cbn in H.
      destruct H as [H|[H|[H|[H|[]]]]]; discriminate.
  - split; [done|]. split; [done|]. intros _.
    apply list_elem_of_In. cbn. tauto.
Qed.

Lemma handleKeydown_leaves_texts_alone_witness :
  let p := freshPage (js "Hello") (js "Bonjour") in
  finalPage (handleKeydown (mkKey false (js "z"))) p = p.
Proof.
  intros p.
  destruct (handleKeydown_leaves_texts_alone (mkKey false (js "z")) p)
    as (_ & _ & _ & _ & _ & H).
  apply H. reflexivity.
Defined.

Lemma fallback_always_cleans_up_witness :
  let p := freshPage (js "Hello") (js "Bonjour") in
  execCommandError p = None
  /\ EExecCopy ∈ effectsOf (fallbackCopyText (js "Bonjour")) p.
Proof.
  intros p.
  destruct (fallback_always_cleans_up (js "Bonjour") p) as (_ & _ & _ & _ & H).
  split; [reflexivity | apply H; reflexivity].
Defined.

(** ** The copy button *)

Lemma trace_pageAfterCopy (p : Page) (text : jsstring) :
  trace (pageAfterCopy p text)
  = trace p ++ match clipboardWriteText p with
               | Some _ => [EClipboardWrite text]
               | None => fallbackEffects p text
               end.
Proof.
  unfold pageAfterCopy. destruct (clipboardWriteText p) as [writeText|]; [|done].
  by destruct (writeText text).
Qed.

Lemma microtasks_pageAfterCopy (p : Page) (text : jsstring) :
  microtasks (pageAfterCopy p text)
  = microtasks p ++ match clipboardWriteText p with
                    | Some writeText =>
                        match writeText text with
                        | Some err => [RejectionHandler err text]
                        | None => []
                        end
                    | None => []
                    end.
Proof.
  unfold pageAfterCopy.
  destruct (clipboardWriteText p) as [writeText|]; [|by rewrite app_nil_r].
  destruct (writeText text); [done|]. by rewrite app_nil_r.
Qed.

Lemma run_copyButtonClick (b : CopyButton) (p : Page) :
  copyButtonClick b p
  = match outputText p with
    | Some t =>
        if nonEmpty t then
          (Normal ([PreventDefault; StopPropagation],
                   mkButton (js "Copied!") (js "0.6")
                            (restoreTimers b ++ [buttonTitle b])),
           pageAfterCopy p (trim t))
        else (Normal ([PreventDefault; StopPropagation], b), p)
    | None => (Normal ([PreventDefault; StopPropagation], b), p)
    end.
Proof.
  cbv [copyButtonClick bind get]. destruct (outputText p) as [t|]; [|done].
  destruct (nonEmpty t); [|done]. by rewrite run_copyPlainText.
Qed.

Lemma clicked_copies (b : CopyButton) (p : Page) (t : jsstring) :
  outputText p = Some t -> nonEmpty t = true ->
  clicked b p = mkButton (js "Copied!") (js "0.6")
                         (restoreTimers b ++ [buttonTitle b]).
Proof.
  intros Hout Hne. unfold clicked, completion.
  by rewrite run_copyButtonClick, Hout, Hne.
Qed.

(** X16.  The copy button and Alt+z copy the same thing: on every page a
    click on the button has the effects of the Alt+z shortcut after its
    [preventDefault], and queues the same clipboard rejection handlers;
    the click handler never throws and always calls [preventDefault] and
    [stopPropagation] on its event. *)
Theorem copy_button_copies_like_alt_z (b : CopyButton) (p : Page) :
  effectsOf (handleKeydown (altKeyPress "z")) p
  = EPreventDefault :: effectsOf (copyButtonClick b) p
  /\ microtasks (finalPage (handleKeydown (altKeyPress "z")) p)
     = microtasks (finalPage (copyButtonClick b) p)
  /\ exists b',
       completion (copyButtonClick b) p
       = Normal ([PreventDefault; StopPropagation], b').
Proof.
  unfold completion, effectsOf, finalPage.
  rewrite handleKeydown_cases, run_copyButtonClick.
  change (altKey (altKeyPress "z") && strictEq (key (altKeyPress "z")) (js "z"))
    with true. cbv iota.
  cbv [bind emit modify]. set (q := withTrace p (trace p ++ [EPreventDefault])).
  destruct (outputText p) as [t|] eqn:Hout;
    [destruct (nonEmpty t) eqn:Hne|]; cbn [ret fst snd].
  - rewrite run_copyPlainText. cbn [fst snd].
    rewrite !trace_pageAfterCopy, !microtasks_pageAfterCopy.
    change (clipboardWriteText q) with (clipboardWriteText p).
    change (fallbackEffects q (trim t)) with (fallbackEffects p (trim t)).
    change (microtasks q) with (microtasks p).
    change (trace q) with (trace p ++ [EPreventDefault]).
    rewrite <- !app_assoc, !drop_app_length. eauto.
  - change (trace q) with (trace p ++ [EPreventDefault]).
    rewrite drop_app_length, drop_all. eauto.
  - change (trace q) with (trace p ++ [EPreventDefault]).
    rewrite drop_app_length, drop_all. eauto.
Qed.

(** X17.  A click on the copy button with a non-empty output shows
    "Copied!" at opacity 0.6, and when its timer fires the button has
    the title it had before the click and no inline opacity; a click
    with a missing or empty output leaves the button as it is and copies
    nothing. *)
Theorem copy_button_title_comes_back (b : CopyButton) (p : Page) :
  (forall t, outputText p = Some t -> nonEmpty t = true ->
     restoreTimers b = [] ->
     buttonTitle (clicked b p) = js "Copied!"
     /\ buttonOpacity (clicked b p) = js "0.6"
     /\ fireRestoreTimer (clicked b p) = mkButton (buttonTitle b) [] [])
  /\ (outputText p = None \/ outputText p = Some [] ->
        clicked b p = b /\ finalPage (copyButtonClick b) p = p).
Proof.
  split.
  - intros t Hout Hne Hno. rewrite (clicked_copies b p t Hout Hne), Hno. done.
  - unfold clicked, completion, finalPage. rewrite run_copyButtonClick.
    by intros [-> | ->].
Qed.

Lemma copy_button_title_comes_back_witness :
  let b := mkButton (js "Copy") [] [] in
  let p := freshPage (js "Hello") (js "Bonjour") in
  buttonTitle (clicked b p) = js "Copied!"
  /\ fireRestoreTimer (clicked b p) = b.
Proof.
  intros b p.
  destruct (copy_button_title_comes_back b p) as [H _].
  destruct (H (js "Bonjour") eq_refl eq_refl eq_refl) as (Ht & _ & Hback).
  split; [exact Ht | exact Hback].
Defined.

(** X18.  A second click before the timer of the first has fired takes
    "Copied!" for the original title: once both timers have fired the
    button is left with the title "Copied!", whatever its title was. *)
Theorem second_click_keeps_copied_title (b : CopyButton) (p p' : Page)
    (t t' : jsstring) :
  outputText p = Some t -> nonEmpty t = true ->
  outputText p' = Some t' -> nonEmpty t' = true ->
  restoreTimers b = [] ->
  let b2 := clicked (clicked b p) p' in
  restoreTimers b2 = [buttonTitle b; js "Copied!"]
  /\ fireRestoreTimer b2 = mkButton (buttonTitle b) [] [js "Copied!"]
  /\ fireRestoreTimer (fireRestoreTimer b2) = mkButton (js "Copied!") [] [].
Proof.
  intros Hout Hne Hout' Hne' Hno b2. unfold b2.
  rewrite (clicked_copies _ p' t' Hout' Hne'), (clicked_copies b p t Hout Hne).
  cbn [restoreTimers buttonTitle]. rewrite Hno. done.
Qed.

Lemma second_click_keeps_copied_title_witness :
  let b := mkButton (js "Copy") [] [] in
  let p := freshPage (js "Hello") (js "Bonjour") in
  fireRestoreTimer (fireRestoreTimer (clicked (clicked b p) p))
  = mkButton (js "Copied!") [] [].
Proof.
  intros b p.
  exact (proj2 (proj2 (second_click_keeps_copied_title b p p
                         (js "Bonjour") (js "Bonjour")
                         eq_refl eq_refl eq_refl eq_refl eq_refl))).
Defined.

(** ** [escapeRegex] *)

Lemma isRegexSpecial_backslash : isRegexSpecial BACKSLASH = true.
Proof. reflexivity. Qed.

Lemma unescape_escapeRegex (s : jsstring) : unescape (escapeRegex s) = s.
Proof.
  induction s as [|c s IH]; [done|].
  cbn [escapeRegex flat_map]. fold (escapeRegex s).
  destruct (isRegexSpecial c) eqn:Hc.
  - cbn [app unescape]. rewrite N.eqb_refl. by rewrite IH.
  - cbn [app unescape]. destruct (N.eqb c BACKSLASH) eqn:Hb.
    + apply N.eqb_eq in Hb. subst c.
      by rewrite isRegexSpecial_backslash in Hc.
    + by rewrite IH.
Qed.

(** X19.  [escapeRegex] loses nothing: the string is read back from its
    escaped form, so two different strings never escape to the same
    pattern; the escaped form is longer by one unit for each special
    character, a string without special characters is returned as it is,
    and escaping goes through concatenation. *)
Theorem escapeRegex_loses_nothing (s s' : jsstring) :
  unescape (escapeRegex s) = s
  /\ (escapeRegex s = escapeRegex s' -> s = s')
  /\ length (escapeRegex s) = length s + length (List.filter isRegexSpecial s)
  /\ (forallb (fun c => negb (isRegexSpecial c)) s = true -> escapeRegex s = s)
  /\ escapeRegex (s ++ s') = escapeRegex s ++ escapeRegex s'.
Proof.
  split; [apply unescape_escapeRegex|]. split.
  { intros H. rewrite <- (unescape_escapeRegex s), H.
    apply unescape_escapeRegex. }
  split.
  { induction s as [|c s IH]; [done|].
    cbn [escapeRegex flat_map List.filter]. fold (escapeRegex s).
    rewrite length_app. destruct (isRegexSpecial c); cbn [length]; lia. }
  split.
  { induction s as [|c s IH]; [done|]. cbn [forallb].
    intros [Hc Hs]%andb_prop. cbn [escapeRegex flat_map]. fold (escapeRegex s).
    destruct (isRegexSpecial c); [done|]. cbn [app]. by rewrite IH. }
  apply flat_map_app.
Qed.

Lemma escapeRegex_loses_nothing_witness :
  escapeRegex (js "ab") = js "ab"
  /\ (escapeRegex (js "a.b") = escapeRegex (js "a.b") -> js "a.b" = js "a.b").
Proof.
  split.
  - destruct (escapeRegex_loses_nothing (js "ab") []) as (_ & _ & _ & H & _).
    apply H. reflexivity.
  - exact (proj1 (proj2 (escapeRegex_loses_nothing (js "a.b") (js "a.b")))).
Defined.

(** ** Installing the copy button *)

Lemma hide_hidden (o : OriginalCopyButton) : hidden (hide o).
Proof. unfold hidden, hide. cbn. by destruct (parentCell o). Qed.

(** X20.  The copy button is installed once: with the top bar in place,
    the first call of [overrideBingCopyButton] appends one button, titled
    "Copy", carrying the markup of Bing's button and one click listener,
    hides Bing's button and its cell and registers one observer; a second
    call changes nothing. *)
Theorem copy_button_installed_once (d : Document) (children : list jsstring) :
  fixedCopyButtonInitialized d = false ->
  fixedCopyButton d = None ->
  customTopBar d = Some children ->
  let d1 := overrideBingCopyButton d in
  fixedCopyButton d1
  = Some (mkFixed (match originalCopyButton d with
                   | Some o => innerHTML o
                   | None => []
                   end)
                  (mkButton (js "Copy") [] []) (Some (js "true")) 1)
  /\ customTopBar d1 = Some (children ++ [js "fixed_tta_copyIcon"])
  /\ bodyObservers d1 = S (bodyObservers d)
  /\ (forall o, originalCopyButton d1 = Some o -> hidden o)
  /\ overrideBingCopyButton d1 = d1.
Proof.
  intros Hflag Hfixed Hbar d1. unfold d1, overrideBingCopyButton.
  rewrite on_bing, Hflag, Hfixed, Hbar. cbn.
  split; [done|]. split; [done|]. split; [done|]. split; [|done].
  intros o Ho. destruct (originalCopyButton d) as [o'|]; [|done].
  injection Ho as <-. apply hide_hidden.
Qed.


Lemma copy_button_installed_once_witness :
  let d := mkDocument (Some (mkOriginal (js "<svg/>") [] (Some [])))
                      None (Some []) false 0 [] in
  overrideBingCopyButton (overrideBingCopyButton d) = overrideBingCopyButton d.
Proof.
  intros d.
  exact (proj2 (proj2 (proj2 (proj2
           (copy_button_installed_once d [] eq_refl eq_refl eq_refl))))).
Defined.

Lemma iter_succ_r {A} (f : A -> A) (n : nat) (x : A) :
  Nat.iter (S n) f x = f (Nat.iter n f x).
Proof. reflexivity. Qed.

(** X21.  Without the top bar nothing is installed, however often
    [overrideBingCopyButton] is called: no button is created, no observer
    is registered, the flag stays unset and each call logs one error;
    Bing's own button is hidden all the same from the first call on. *)
Theorem missing_top_bar_installs_nothing (d : Document) (n : nat) :
  fixedCopyButtonInitialized d = false ->
  fixedCopyButton d = None ->
  customTopBar d = None ->
  let dn := Nat.iter n overrideBingCopyButton d in
  fixedCopyButton dn = None
  /\ customTopBar dn = None
  /\ fixedCopyButtonInitialized dn = false
  /\ bodyObservers dn = bodyObservers d
  /\ errors dn
     = errors d
       ++ replicate n (js "Custom top bar not found to place copy button.")
  /\ (0 < n -> forall o, originalCopyButton dn = Some o -> hidden o).
Proof.
  intros Hflag Hfixed Hbar. induction n as [|n IH]; intros dn.
  { unfold dn. cbn [Nat.iter nat_rect replicate]. rewrite app_nil_r.
    repeat (split; [done|]). lia. }
  destruct IH as (IHfixed & IHbar & IHflag & IHobs & IHerr & _).
  unfold dn. rewrite iter_succ_r. set (d' := Nat.iter n overrideBingCopyButton d) in *.
  unfold overrideBingCopyButton. rewrite on_bing, IHflag, IHfixed, IHbar.
  cbn. repeat (split; [done|]). split.
  - rewrite IHerr, <- app_assoc. f_equal.
    change (?x :: replicate n ?x) with (replicate (S n) x).
    by rewrite replicate_S_end.
  - intros _ o Ho. destruct (originalCopyButton d') as [o'|]; [|done].
    injection Ho as <-. apply hide_hidden.
Qed.

Lemma missing_top_bar_installs_nothing_witness :
  let d := mkDocument (Some (mkOriginal (js "<svg/>") [] (Some [])))
                      None None false 0 [] in
  let d2 := Nat.iter 2 overrideBingCopyButton d in
  fixedCopyButton d2 = None
  /\ length (errors d2) = 2
  /\ hidden (mkOriginal (js "<svg/>") (js "none") (Some (js "none"))).
Proof.
  intros d d2.
  destruct (missing_top_bar_installs_nothing d 2 eq_refl eq_refl eq_refl)
    as (Hfixed & _ & _ & _ & Herr & Hhid).
  split; [exact Hfixed|]. split; [|apply Hhid; [lia | reflexivity]].
  fold d2 in Herr. by rewrite Herr.
Defined.

(** X22.  The observer keeps Bing's button out of sight: after its
    callback the button, if there is one, has [display: none], a second
    run of the callback changes nothing, and the callback touches
    nothing else.  A cell that shows again under a button that is still
    hidden is left showing. *)
Theorem observer_hides_original_again (d : Document) :
  let d1 := hideOriginalAgain d in
  (forall o, originalCopyButton d1 = Some o -> display o = js "none")
  /\ (forall o, originalCopyButton d = Some o -> display o <> js "none" ->
        originalCopyButton d1 = Some (hide o) /\ hidden (hide o))
  /\ (forall o, originalCopyButton d = Some o -> display o = js "none" ->
        d1 = d)
  /\ hideOriginalAgain d1 = d1
  /\ fixedCopyButton d1 = fixedCopyButton d
  /\ customTopBar d1 = customTopBar d
  /\ fixedCopyButtonInitialized d1 = fixedCopyButtonInitialized d
  /\ bodyObservers d1 = bodyObservers d
  /\ errors d1 = errors d.
Proof.
  intros d1. unfold d1, hideOriginalAgain.
  change (negb (strictEq (js "tta_copyIcon") (js "fixed_tta_copyIcon")))
    with true. cbn [andb].
  destruct (originalCopyButton d) as [o0|] eqn:Ho.
  2: { rewrite Ho. repeat split; done. }
  destruct (strictEq (display o0) (js "none")) eqn:Hd; cbn [negb].
  - apply strictEq_true in Hd. rewrite Ho, Hd.
    change (strictEq (js "none") (js "none")) with true. cbn [negb].
    split; [by intros o [= <-]|].
    split; [by intros o [= <-] Hne|].
    repeat split; done.
  - apply strictEq_false in Hd.
    cbn [originalCopyButton fixedCopyButton customTopBar
         fixedCopyButtonInitialized bodyObservers errors].
    change (strictEq (display (hide o0)) (js "none")) with true. cbn [negb].
    split; [by intros o [= <-]|].
    split; [intros o [= <-] _; split; [done | apply hide_hidden]|].
    split; [by intros o [= <-] Heq|].
    repeat split; done.
Qed.

Lemma observer_hides_original_again_witness :
  let d := mkDocument (Some (mkOriginal (js "<svg/>") (js "block") (Some [])))
                      None (Some []) true 1 [] in
  originalCopyButton (hideOriginalAgain d)
  = Some (mkOriginal (js "<svg/>") (js "none") (Some (js "none"))).
Proof.
  intros d.
  destruct (observer_hides_original_again d) as (_ & H & _).
  destruct (H (mkOriginal (js "<svg/>") (js "block") (Some [])) eq_refl)
    as [Heq _]; [vm_compute; discriminate|].
  exact Heq.
Defined.
